(** * ProtoRing: rings under construction in the libosmium area assembler

    A shallow embedding of [osmium/area/detail/proto_ring.hpp].  A ring holds
    non-owning pointers to segments that live in a pool shared with the rest
    of the assembly session, so every operation is a computation over that
    pool: it reads segments through pointers, updates them in place, and can
    stop on a failed [assert] or on a pointer that does not point to a
    segment. *)

From Stdlib Require Import ZArith Lia Bool List.
From stdpp Require Import base option list gmap.

Local Open Scope Z_scope.

(** ** 64-bit signed integers ([int64_t])

    [m_sum] and [det()] are [int64_t].  They are carried as [Z] together with
    the two's complement wrap-around of the machine operations.  (C++ leaves
    signed overflow undefined; the embedding follows what the compiled
    arithmetic does.) *)

Module Int64.

Definition modulus : Z := 2 ^ 64.
Definition min_signed : Z := - 2 ^ 63.
Definition max_signed : Z := 2 ^ 63 - 1.

Definition in_range (z : Z) : Prop := min_signed <= z <= max_signed.

Definition wrap (z : Z) : Z := (z + 2 ^ 63) mod modulus - 2 ^ 63.

Definition add (a b : Z) : Z := wrap (a + b).
Definition neg (a : Z) : Z := wrap (- a).

End Int64.

(** ** Pointers

    Addresses are natural numbers; address [0] is the null pointer. *)

Abbreviation seg_ptr := N (only parsing).
Abbreviation ring_ptr := N (only parsing).
Abbreviation way_ptr := N (only parsing).

Definition nullptr : N := 0%N.

(** ** Locations and node references *)

(** Modelled from the spec: [osmium/osm/location.hpp] is not part of the
    sources at hand.  A location is a point with two integer coordinates;
    two locations are equal when both coordinates are.  ([ltb], by [x] then
    by [y], serves the two sample orders on segments only.) *)
Module Location.

Record t : Type := make { x : Z; y : Z }.

Definition eqb (a b : t) : bool := (x a =? x b) && (y a =? y b).

Definition ltb (a b : t) : bool :=
  (x a <? x b) || ((x a =? x b) && (y a <? y b)).

End Location.

(** Modelled from the spec: [osmium/osm/node_ref.hpp] is not part of the
    sources at hand.  A node reference is an opaque node id together with
    the location of that node. *)
Module NodeRef.

Record t : Type := make { ref : Z; location : Location.t }.

End NodeRef.

(** ** Directed segments *)

(** Modelled from the spec: [osmium/area/detail/node_ref_segment.hpp] is not
    part of the sources at hand.  A segment has a start and a stop endpoint,
    the way it came from, a back-reference to the ring that owns it and a
    "direction finalized" flag.  [det] is the shoelace cross-term of the
    edge, [reverse] swaps start and stop. *)
Module NodeRefSegment.

Record t : Type := make {
  start : NodeRef.t;
  stop : NodeRef.t;
  way : way_ptr;
  ring : ring_ptr;
  direction_done : bool
}.

Definition set_ring (r : ring_ptr) (s : t) : t :=
  {| start := start s; stop := stop s; way := way s;
     ring := r; direction_done := direction_done s |}.

Definition reverse (s : t) : t :=
  {| start := stop s; stop := start s; way := way s;
     ring := ring s; direction_done := direction_done s |}.

Definition mark_direction_done (s : t) : t :=
  {| start := start s; stop := stop s; way := way s;
     ring := ring s; direction_done := true |}.

Definition mark_direction_not_done (s : t) : t :=
  {| start := start s; stop := stop s; way := way s;
     ring := ring s; direction_done := false |}.

(** The exact (unbounded) cross-term and its [int64_t] value. *)
Definition cross (s : t) : Z :=
  let a := NodeRef.location (start s) in
  let b := NodeRef.location (stop s) in
  Location.x a * Location.y b - Location.y a * Location.x b.

Definition det (s : t) : Z := Int64.wrap (cross s).

End NodeRefSegment.

(** ** The order on segments

    [operator<] on segments is declared in the segment header.  The ring
    code only needs that it is a strict order and that it does not look at
    the ring back-reference, which [add_segment_back] overwrites. *)

Class SegmentOrder : Type := seg_lt : NodeRefSegment.t -> NodeRefSegment.t -> bool.

Record SegmentOrderLaws (order : SegmentOrder) : Prop := {
  seg_lt_irrefl : forall a, seg_lt a a = false;
  seg_lt_trans : forall a b c,
    seg_lt a b = true -> seg_lt b c = true -> seg_lt a c = true;
  seg_lt_set_ring_l : forall r a b,
    seg_lt (NodeRefSegment.set_ring r a) b = seg_lt a b;
  seg_lt_set_ring_r : forall r a b,
    seg_lt a (NodeRefSegment.set_ring r b) = seg_lt a b
}.

(** Two orders that satisfy the laws, for running the ring code on concrete
    inputs.  Neither is meant to be the order of the segment header, which
    is not part of the sources at hand: every general statement below is
    about an arbitrary order with the laws.

    [lex_lt] reads a segment in its current direction: it compares the
    locations of the start endpoints, then those of the stop endpoints.
    [undirected_lt] reads a segment the same way in both directions: it
    compares the smaller of the two endpoint locations, then the larger. *)
Definition lex_lt (a b : NodeRefSegment.t) : bool :=
  let sa := NodeRef.location (NodeRefSegment.start a) in
  let sb := NodeRef.location (NodeRefSegment.start b) in
  let ta := NodeRef.location (NodeRefSegment.stop a) in
  let tb := NodeRef.location (NodeRefSegment.stop b) in
  Location.ltb sa sb || (Location.eqb sa sb && Location.ltb ta tb).

Definition lex_order : SegmentOrder := lex_lt.

Definition lower_end (s : NodeRefSegment.t) : Location.t :=
  let a := NodeRef.location (NodeRefSegment.start s) in
  let b := NodeRef.location (NodeRefSegment.stop s) in
  if Location.ltb b a then b else a.

Definition upper_end (s : NodeRefSegment.t) : Location.t :=
  let a := NodeRef.location (NodeRefSegment.start s) in
  let b := NodeRef.location (NodeRefSegment.stop s) in
  if Location.ltb b a then a else b.

Definition undirected_lt (a b : NodeRefSegment.t) : bool :=
  Location.ltb (lower_end a) (lower_end b)
  || (Location.eqb (lower_end a) (lower_end b)
      && Location.ltb (upper_end a) (upper_end b)).

Definition undirected_order : SegmentOrder := undirected_lt.

(** ** Computations over the segment pool

    A computation takes the pool and either returns a value and the updated
    pool or stops.  It stops on a failed [assert] (the embedding is of a
    build with assertions, that is without [NDEBUG]), on a pointer that
    does not point to a segment, and on [front()] or [back()] of an empty
    vector. *)

Inductive assertion : Type :=
| assert_segment            (* assert(segment)          in add_segment_back *)
| assert_outer_ring         (* assert(outer_ring)       in set_outer_ring   *)
| assert_m_inner_empty      (* assert(m_inner.empty())  in set_outer_ring   *)
| assert_ring               (* assert(ring)             in add_inner_ring   *)
| assert_not_m_outer_ring.  (* assert(!m_outer_ring)    in add_inner_ring   *)

Inductive fault : Type :=
| assertion_failed (a : assertion)
| invalid_pointer     (* a pointer that does not point to a segment *)
| empty_vector.       (* front() or back() of an empty vector *)

Abbreviation segment_pool := (gmap N NodeRefSegment.t) (only parsing).

Inductive outcome (A : Type) : Type :=
| Ok (a : A) (pool : segment_pool)
| Abort (f : fault).

Arguments Ok {A} a pool.
Arguments Abort {A} f.

Definition M (A : Type) : Type := segment_pool -> outcome A.

Definition ret {A} (a : A) : M A := fun pool => Ok a pool.

Definition bind {A B} (c : M A) (k : A -> M B) : M B :=
  fun pool =>
    match c pool with
    | Ok a pool' => k a pool'
    | Abort f => Abort f
    end.

Definition abort {A} (f : fault) : M A := fun _ => Abort f.

Declare Scope ring_scope.
Delimit Scope ring_scope with ring.
Notation "x <- c ;; k" := (bind c (fun x => k))
  (at level 100, c at next level, right associativity) : ring_scope.
Notation "c ;;; k" := (bind c (fun _ => k))
  (at level 100, right associativity) : ring_scope.
Local Open Scope ring_scope.

Definition c_assert (b : bool) (a : assertion) : M unit :=
  if b then ret tt else abort (assertion_failed a).

(** [*p] *)
Definition deref (p : seg_ptr) : M NodeRefSegment.t :=
  fun pool =>
    match pool !! p with
    | Some s => Ok s pool
    | None => Abort invalid_pointer
    end.

(** [p->f()] for a member function [f] that updates the segment in place. *)
Definition update (f : NodeRefSegment.t -> NodeRefSegment.t) (p : seg_ptr)
  : M unit :=
  fun pool =>
    match pool !! p with
    | Some _ => Ok tt (alter f p pool)
    | None => Abort invalid_pointer
    end.

(** [std::for_each(v.begin(), v.end(), f)] *)
Fixpoint for_each (v : list N) (f : seg_ptr -> M unit) : M unit :=
  match v with
  | [] => ret tt
  | p :: v' => f p ;;; for_each v' f
  end.

Definition front (v : list N) : M seg_ptr :=
  match v with
  | [] => abort empty_vector
  | p :: _ => ret p
  end.

Definition back (v : list N) : M seg_ptr :=
  match last v with
  | None => abort empty_vector
  | Some p => ret p
  end.

(** ** The ring

    The member functions take the ring record and return the updated one;
    the segments they reach through pointers are updated in the pool. *)

Record ProtoRing : Type := {
  m_segments : list N;       (* std::vector<NodeRefSegment*> *)
  m_inner : list N;          (* std::vector<ProtoRing*> *)
  m_min_segment : seg_ptr;
  m_outer_ring : ring_ptr;
  m_sum : Z                  (* int64_t *)
}.

Section Ring.

Context {order : SegmentOrder}.

(** The address of the ring the member functions run on. *)
Variable this : ring_ptr.

Definition add_segment_back (r : ProtoRing) (segment : seg_ptr)
  : M ProtoRing :=
  c_assert (negb (segment =? nullptr)%N) assert_segment ;;;
  s <- deref segment ;;
  m <- deref (m_min_segment r) ;;
  let min := if seg_lt s m then segment else m_min_segment r in
  update (NodeRefSegment.set_ring this) segment ;;;
  s' <- deref segment ;;
  ret {| m_segments := m_segments r ++ [segment];
         m_inner := m_inner r;
         m_min_segment := min;
         m_outer_ring := m_outer_ring r;
         m_sum := Int64.add (m_sum r) (NodeRefSegment.det s') |}.

(** The constructor [ProtoRing(NodeRefSegment* segment)]. *)
Definition create (segment : seg_ptr) : M ProtoRing :=
  add_segment_back
    {| m_segments := []; m_inner := []; m_min_segment := segment;
       m_outer_ring := nullptr; m_sum := 0 |}
    segment.

(** The loop [for (segment : v) add_segment_back(segment)]. *)
Fixpoint add_segments_back (r : ProtoRing) (v : list N) : M ProtoRing :=
  match v with
  | [] => ret r
  | segment :: v' =>
      r' <- add_segment_back r segment ;; add_segments_back r' v'
  end.

(** [other] is another ring object than the one at [this]; of its fields
    only [m_segments] is read. *)
Definition join_forward (r other : ProtoRing) : M ProtoRing :=
  add_segments_back r (m_segments other).

(** The loop of [join_backward], over the reversed vector. *)
Fixpoint reverse_and_add (r : ProtoRing) (v : list N) : M ProtoRing :=
  match v with
  | [] => ret r
  | segment :: v' =>
      update NodeRefSegment.reverse segment ;;;
      r' <- add_segment_back r segment ;;
      reverse_and_add r' v'
  end.

Definition join_backward (r other : ProtoRing) : M ProtoRing :=
  reverse_and_add r (rev (m_segments other)).

End Ring.

Definition min_segment (r : ProtoRing) : seg_ptr := m_min_segment r.

Definition outer_ring (r : ProtoRing) : ring_ptr := m_outer_ring r.

Definition inner_rings (r : ProtoRing) : list N := m_inner r.

Definition segments (r : ProtoRing) : list N := m_segments r.

Definition sum (r : ProtoRing) : Z := m_sum r.

Definition set_outer_ring (r : ProtoRing) (outer : ring_ptr) : M ProtoRing :=
  c_assert (negb (outer =? nullptr)%N) assert_outer_ring ;;;
  c_assert (match m_inner r with [] => true | _ => false end)
         assert_m_inner_empty ;;;
  ret {| m_segments := m_segments r; m_inner := m_inner r;
         m_min_segment := m_min_segment r;
         m_outer_ring := outer; m_sum := m_sum r |}.

Definition add_inner_ring (r : ProtoRing) (ring : ring_ptr) : M ProtoRing :=
  c_assert (negb (ring =? nullptr)%N) assert_ring ;;;
  c_assert (m_outer_ring r =? nullptr)%N assert_not_m_outer_ring ;;;
  ret {| m_segments := m_segments r; m_inner := m_inner r ++ [ring];
         m_min_segment := m_min_segment r;
         m_outer_ring := m_outer_ring r; m_sum := m_sum r |}.

Definition is_outer (r : ProtoRing) : bool := (m_outer_ring r =? nullptr)%N.

Definition get_node_ref_start (r : ProtoRing) : M NodeRef.t :=
  p <- front (m_segments r) ;;
  s <- deref p ;;
  ret (NodeRefSegment.start s).

Definition get_node_ref_stop (r : ProtoRing) : M NodeRef.t :=
  p <- back (m_segments r) ;;
  s <- deref p ;;
  ret (NodeRefSegment.stop s).

Definition closed (r : ProtoRing) : M bool :=
  a <- get_node_ref_start r ;;
  b <- get_node_ref_stop r ;;
  ret (Location.eqb (NodeRef.location a) (NodeRef.location b)).

Definition reverse (r : ProtoRing) : M ProtoRing :=
  for_each (m_segments r) (update NodeRefSegment.reverse) ;;;
  ret {| m_segments := rev (m_segments r); m_inner := m_inner r;
         m_min_segment := m_min_segment r;
         m_outer_ring := m_outer_ring r;
         m_sum := Int64.neg (m_sum r) |}.

Definition mark_direction_done (r : ProtoRing) : M ProtoRing :=
  for_each (m_segments r) (update NodeRefSegment.mark_direction_done) ;;;
  ret r.

Definition is_cw (r : ProtoRing) : bool := m_sum r <=? 0.

Definition fix_direction (r : ProtoRing) : M ProtoRing :=
  if Bool.eqb (is_cw r) (is_outer r) then reverse r else ret r.

Definition reset (r : ProtoRing) : M ProtoRing :=
  for_each (m_segments r) (update NodeRefSegment.mark_direction_not_done) ;;;
  ret {| m_segments := m_segments r; m_inner := [];
         m_min_segment := m_min_segment r;
         m_outer_ring := nullptr; m_sum := m_sum r |}.

(** [get_ways] inserts the way of every segment into the caller's set. *)
Fixpoint get_ways_loop (v : list N) (ways : gset N) : M (gset N) :=
  match v with
  | [] => ret ways
  | p :: v' =>
      s <- deref p ;; get_ways_loop v' ({[ NodeRefSegment.way s ]} ∪ ways)
  end.

Definition get_ways (r : ProtoRing) (ways : gset N) : M (gset N) :=
  get_ways_loop (m_segments r) ways.

(** [create] followed by a sequence of [add_segment_back] calls. *)
Definition build {order : SegmentOrder} (this : ring_ptr)
  (segment : seg_ptr) (more : list N) : M ProtoRing :=
  r <- create this segment ;; add_segments_back this r more.

(** ** Vocabulary of the statements *)

(** [p] points to a segment of the pool. *)
Definition live (pool : segment_pool) (p : seg_ptr) : Prop :=
  is_Some (pool !! p).

(** [p] is non-null and points to a segment of the pool. *)
Definition valid (pool : segment_pool) (p : seg_ptr) : Prop :=
  p <> nullptr /\ live pool p.

(** [p->det()], read off the pool. *)
Definition det_at (pool : segment_pool) (p : seg_ptr) : Z :=
  from_option NodeRefSegment.det 0 (pool !! p).

(** The sum of [det()] over a vector of segments, as an exact integer. *)
Definition sum_det (pool : segment_pool) (v : list N) : Z :=
  foldr (fun p acc => det_at pool p + acc) 0 v.

(** The ring's sum is the sum of the contributions of its segments,
    in [int64_t] arithmetic. *)
Definition sum_consistent (pool : segment_pool) (r : ProtoRing) : Prop :=
  m_sum r = Int64.wrap (sum_det pool (m_segments r)).

(** [p] is in [v] and no segment of [v] is smaller than [*p]. *)
Definition is_minimum {order : SegmentOrder} (pool : segment_pool)
  (v : list N) (p : seg_ptr) : Prop :=
  p ∈ v /\
  exists m, pool !! p = Some m /\
    forall q s, q ∈ v -> pool !! q = Some s -> seg_lt s m = false.

(** The pool after [f] ran on every pointer of [v], in order. *)
Definition alter_all (f : NodeRefSegment.t -> NodeRefSegment.t)
  (v : list N) (pool : segment_pool) : segment_pool :=
  foldl (fun m p => alter f p m) pool v.

(** Two rings that differ at most in their nesting links. *)
Definition same_chain (r r' : ProtoRing) : Prop :=
  m_segments r' = m_segments r /\
  m_min_segment r' = m_min_segment r /\
  m_sum r' = m_sum r.

(** ** Printing

    [print] writes to a stream.  The stream is kept as the sequence of the
    pieces inserted into it: the string literals of the source, and node
    ids.  ([OSMIUM_DEBUG_RING_NO] is not defined.) *)

Inductive piece : Type :=
| ring_open           (* "Ring ["  *)
| comma               (* ','       *)
| ring_close          (* "]-"      *)
| OUTER               (* "OUTER"   *)
| INNER               (* "INNER"   *)
| node_id (ref : Z).  (* a node id *)

(** The loop [for (segment : m_segments) out << ',' << segment->stop().ref()]. *)
Fixpoint print_stops (v : list N) (out : list piece) : M (list piece) :=
  match v with
  | [] => ret out
  | p :: v' =>
      s <- deref p ;;
      print_stops v' (out ++ [comma; node_id (NodeRef.ref (NodeRefSegment.stop s))])
  end.

Definition print (r : ProtoRing) (out : list piece) : M (list piece) :=
  let out := out ++ [ring_open] in
  out <- match m_segments r with
         | [] => ret out
         | p :: _ =>
             s <- deref p ;;
             ret (out ++ [node_id (NodeRef.ref (NodeRefSegment.start s))])
         end ;;
  out <- print_stops (m_segments r) out ;;
  ret (out ++ [ring_close; if is_outer r then OUTER else INNER]).

(** ** Sequences of calls

    The public member functions that change a ring, as values, so that
    statements can range over every sequence of calls a user can make. *)

Inductive call : Type :=
| call_add_segment_back (segment : seg_ptr)
| call_set_outer_ring (outer : ring_ptr)
| call_add_inner_ring (ring : ring_ptr)
| call_reverse
| call_mark_direction_done
| call_fix_direction
| call_reset
| call_join_forward (other : ProtoRing)
| call_join_backward (other : ProtoRing).

Definition exec {order : SegmentOrder} (this : ring_ptr) (c : call)
  (r : ProtoRing) : M ProtoRing :=
  match c with
  | call_add_segment_back segment => add_segment_back this r segment
  | call_set_outer_ring outer => set_outer_ring r outer
  | call_add_inner_ring ring => add_inner_ring r ring
  | call_reverse => reverse r
  | call_mark_direction_done => mark_direction_done r
  | call_fix_direction => fix_direction r
  | call_reset => reset r
  | call_join_forward other => join_forward this r other
  | call_join_backward other => join_backward this r other
  end.

Fixpoint exec_all {order : SegmentOrder} (this : ring_ptr) (cs : list call)
  (r : ProtoRing) : M ProtoRing :=
  match cs with
  | [] => ret r
  | c :: cs' => r' <- exec this c r ;; exec_all this cs' r'
  end.

(** What every ring made through the public interface satisfies: it has a
    segment, its segment pointers are valid, its cached minimum is one of
    its segments, its sum is an [int64_t], and it is not at once a hole and
    a ring with holes. *)
Definition well_formed (pool : segment_pool) (r : ProtoRing) : Prop :=
  m_segments r <> []
  /\ Forall (valid pool) (m_segments r)
  /\ m_min_segment r ∈ m_segments r
  /\ Int64.in_range (m_sum r)
  /\ (m_outer_ring r = nullptr \/ m_inner r = []).

(** The node ids among the pieces of a printed ring. *)
Definition node_ids (out : list piece) : list Z :=
  omap (fun x => match x with node_id ref => Some ref | _ => None end) out.

(** The node ids along a chain of segments: the start of the first segment,
    then the stop of every segment. *)
Definition start_ref_at (pool : segment_pool) (p : seg_ptr) : option Z :=
  (fun s => NodeRef.ref (NodeRefSegment.start s)) <$> pool !! p.

Definition stop_ref_at (pool : segment_pool) (p : seg_ptr) : option Z :=
  (fun s => NodeRef.ref (NodeRefSegment.stop s)) <$> pool !! p.

Definition chain_ids (pool : segment_pool) (v : list N) : list Z :=
  match v with
  | [] => []
  | p :: _ => option_list (start_ref_at pool p) ++ omap (stop_ref_at pool) v
  end.

(** ** Small rings used as concrete inputs *)

Module Sample.

Definition node (id x y : Z) : NodeRef.t :=
  NodeRef.make id (Location.make x y).

Definition segment (a b : NodeRef.t) : NodeRefSegment.t :=
  NodeRefSegment.make a b 7%N nullptr false.

(** The triangle p1 -> p2 -> p3 -> p1, closed through a second node
    reference [p1'] at the location of [p1]. *)
Definition p1 : NodeRef.t := node 101 0 0.
Definition p2 : NodeRef.t := node 102 5 5.
Definition p3 : NodeRef.t := node 103 1 0.
Definition p1' : NodeRef.t := node 104 0 0.

Definition pool : segment_pool :=
  <[1%N := segment p1 p2]>
  (<[2%N := segment p2 p3]>
  (<[3%N := segment p3 p1']> ∅)).

(** The address of the ring under construction. *)
Definition ring_addr : ring_ptr := 50%N.

(** The open chain [1] and the open chain [2; 3], as two rings over
    the same pool. *)
Definition chain1 : ProtoRing :=
  {| m_segments := [1%N]; m_inner := []; m_min_segment := 1%N;
     m_outer_ring := nullptr; m_sum := 0 |}.

Definition chain23 : ProtoRing :=
  {| m_segments := [2%N; 3%N]; m_inner := []; m_min_segment := 3%N;
     m_outer_ring := nullptr; m_sum := -5 |}.

(** The closed triangle, as an outer ring and as a hole of ring 60. *)
Definition triangle : ProtoRing :=
  {| m_segments := [1%N; 2%N; 3%N]; m_inner := []; m_min_segment := 1%N;
     m_outer_ring := nullptr; m_sum := -5 |}.

Definition hole : ProtoRing :=
  {| m_segments := [1%N; 2%N; 3%N]; m_inner := []; m_min_segment := 1%N;
     m_outer_ring := 60%N; m_sum := -5 |}.

Definition container : ProtoRing :=
  {| m_segments := [1%N; 2%N; 3%N]; m_inner := [61%N; 62%N];
     m_min_segment := 1%N; m_outer_ring := nullptr; m_sum := -5 |}.

(** A segment there and the segment back, (1,0) -> (5,5) -> (1,0), and a
    segment (0,0) -> (1,0) that leads to where they start. *)
Definition zigzag_pool : segment_pool :=
  <[1%N := segment (node 301 1 0) (node 302 5 5)]>
  (<[2%N := segment (node 302 5 5) (node 301 1 0)]>
  (<[3%N := segment (node 300 0 0) (node 301 1 0)]> ∅)).

(** The address of a second ring. *)
Definition other_addr : ring_ptr := 51%N.

(** A closed chain that crosses itself, (0,0) -> (2,2) -> (2,0) -> (0,2)
    -> (0,0): its two lobes have opposite orientation and equal area, so
    the contributions of its segments add up to zero. *)
Definition bowtie_pool : segment_pool :=
  <[1%N := segment (node 201 0 0) (node 202 2 2)]>
  (<[2%N := segment (node 202 2 2) (node 203 2 0)]>
  (<[3%N := segment (node 203 2 0) (node 204 0 2)]>
  (<[4%N := segment (node 204 0 2) (node 201 0 0)]> ∅))).

End Sample.

(** Closes the side conditions on the pointers of a concrete ring. *)
Ltac solve_valid :=
  repeat match goal with
         | |- Forall _ _ => constructor
         | |- valid _ _ => split
         | |- live _ _ => eexists; reflexivity
         | |- _ <> _ => discriminate
         | |- is_Some _ => eexists; reflexivity
         end.

(** ** Facts about [int64_t] arithmetic *)

Module Int64Facts.

Ltac unfold_range :=
  unfold Int64.in_range, Int64.min_signed, Int64.max_signed in *.

Lemma wrap_in_range z : Int64.in_range (Int64.wrap z).
Proof.
  unfold Int64.wrap, Int64.modulus. unfold_range.
  pose proof (Z.mod_pos_bound (z + 2 ^ 63) (2 ^ 64) ltac:(lia)). lia.
Qed.

Lemma wrap_id z : Int64.in_range z -> Int64.wrap z = z.
Proof.
  unfold Int64.wrap, Int64.modulus. unfold_range.
  intros Hz. rewrite Z.mod_small; lia.
Qed.

Lemma wrap_wrap z : Int64.wrap (Int64.wrap z) = Int64.wrap z.
Proof. apply wrap_id, wrap_in_range. Qed.

Lemma wrap_add_l a b : Int64.wrap (Int64.wrap a + b) = Int64.wrap (a + b).
Proof.
  unfold Int64.wrap. f_equal.
  replace ((a + 2 ^ 63) mod Int64.modulus - 2 ^ 63 + b + 2 ^ 63)
    with ((a + 2 ^ 63) mod Int64.modulus + b) by lia.
  rewrite Zplus_mod_idemp_l. f_equal. lia.
Qed.

Lemma wrap_add_r a b : Int64.wrap (a + Int64.wrap b) = Int64.wrap (a + b).
Proof. rewrite Z.add_comm, wrap_add_l. f_equal. lia. Qed.

Lemma wrap_opp a : Int64.wrap (- Int64.wrap a) = Int64.wrap (- a).
Proof.
  unfold Int64.wrap, Int64.modulus. f_equal.
  replace (- ((a + 2 ^ 63) mod 2 ^ 64 - 2 ^ 63) + 2 ^ 63)
    with (2 ^ 64 - (a + 2 ^ 63) mod 2 ^ 64) by lia.
  rewrite Zminus_mod_idemp_r. f_equal. lia.
Qed.

Lemma add_exact a b : Int64.in_range (a + b) -> Int64.add a b = a + b.
Proof. apply wrap_id. Qed.

Lemma neg_involutive a : Int64.in_range a -> Int64.neg (Int64.neg a) = a.
Proof.
  intros Ha. unfold Int64.neg. rewrite wrap_opp, Z.opp_involutive.
  by apply wrap_id.
Qed.

(** Negation changes the sign, except at zero and at the most negative
    value, which are their own negations. *)
Lemma neg_exact a :
  Int64.in_range a -> a <> Int64.min_signed -> Int64.neg a = - a.
Proof.
  intros Ha Hmin. apply wrap_id. unfold_range. lia.
Qed.

Lemma neg_zero : Int64.neg 0 = 0.
Proof. reflexivity. Qed.

Lemma neg_min_signed : Int64.neg Int64.min_signed = Int64.min_signed.
Proof. reflexivity. Qed.

End Int64Facts.

(** ** Facts about segments *)

Module SegmentFacts.

Import NodeRefSegment.

Lemma reverse_involutive s : reverse (reverse s) = s.
Proof. by destruct s. Qed.

Lemma cross_reverse s : cross (reverse s) = - cross s.
Proof. unfold cross. simpl. lia. Qed.

Lemma det_reverse s : det (reverse s) = Int64.neg (det s).
Proof.
  unfold det, Int64.neg.
  by rewrite cross_reverse, Int64Facts.wrap_opp.
Qed.

Lemma det_set_ring r s : det (set_ring r s) = det s.
Proof. reflexivity. Qed.

Lemma det_in_range s : Int64.in_range (det s).
Proof. apply Int64Facts.wrap_in_range. Qed.

(** For endpoints with 32-bit coordinates the cross-term fits in 64 bits,
    so [det] is the exact cross-term. *)
Lemma det_exact s :
  let a := NodeRef.location (start s) in
  let b := NodeRef.location (stop s) in
  - 2 ^ 31 <= Location.x a < 2 ^ 31 ->
  - 2 ^ 31 <= Location.y a < 2 ^ 31 ->
  - 2 ^ 31 <= Location.x b < 2 ^ 31 ->
  - 2 ^ 31 <= Location.y b < 2 ^ 31 ->
  det s = cross s.
Proof.
  intros a b Hxa Hya Hxb Hyb. apply Int64Facts.wrap_id.
  unfold cross. fold a b. Int64Facts.unfold_range.
  change (2 ^ 31) with 2147483648 in *.
  change (2 ^ 63) with 9223372036854775808.
  nia.
Qed.

Lemma iter_comm {A} (f : A -> A) n a : Nat.iter n f (f a) = f (Nat.iter n f a).
Proof. induction n as [|n IH]; simpl; congruence. Qed.

Lemma iter_reverse_even n s : Nat.iter (n + n) reverse s = s.
Proof.
  induction n as [|n IH]; [reflexivity |].
  replace (S n + S n)%nat with (S (S (n + n))) by lia.
  simpl. by rewrite IH, reverse_involutive.
Qed.

Lemma iter_mark_direction_not_done n s :
  Nat.iter (S n) mark_direction_not_done s = mark_direction_not_done s.
Proof.
  induction n as [|n IH]; [reflexivity |].
  change (mark_direction_not_done
            (Nat.iter (S n) mark_direction_not_done s)
          = mark_direction_not_done s).
  by rewrite IH.
Qed.

End SegmentFacts.

(** ** The lexicographic order is a strict order on segments *)

Module LexOrder.

Lemma lex_lt_spec a b :
  lex_lt a b = true <->
  let sa := NodeRef.location (NodeRefSegment.start a) in
  let sb := NodeRef.location (NodeRefSegment.start b) in
  let ta := NodeRef.location (NodeRefSegment.stop a) in
  let tb := NodeRef.location (NodeRefSegment.stop b) in
  (Location.x sa < Location.x sb
   \/ (Location.x sa = Location.x sb /\ Location.y sa < Location.y sb))
  \/ ((Location.x sa = Location.x sb /\ Location.y sa = Location.y sb)
      /\ (Location.x ta < Location.x tb
          \/ (Location.x ta = Location.x tb
              /\ Location.y ta < Location.y tb))).
Proof.
  unfold lex_lt, Location.ltb, Location.eqb. simpl.
  rewrite !orb_true_iff, !andb_true_iff, !orb_true_iff, !andb_true_iff.
  rewrite !Z.ltb_lt, !Z.eqb_eq. tauto.
Qed.

Lemma lex_lt_irrefl a : lex_lt a a = false.
Proof. apply not_true_is_false. rewrite lex_lt_spec. simpl. lia. Qed.

Lemma lex_lt_trans a b c :
  lex_lt a b = true -> lex_lt b c = true -> lex_lt a c = true.
Proof. rewrite !lex_lt_spec. simpl. lia. Qed.

Lemma lex_order_laws : SegmentOrderLaws lex_order.
Proof.
  split.
  - apply lex_lt_irrefl.
  - apply lex_lt_trans.
  - reflexivity.
  - reflexivity.
Qed.

End LexOrder.

Module UndirectedOrder.

Lemma undirected_lt_spec a b :
  undirected_lt a b = true <->
  let sa := lower_end a in
  let sb := lower_end b in
  let ta := upper_end a in
  let tb := upper_end b in
  (Location.x sa < Location.x sb
   \/ (Location.x sa = Location.x sb /\ Location.y sa < Location.y sb))
  \/ ((Location.x sa = Location.x sb /\ Location.y sa = Location.y sb)
      /\ (Location.x ta < Location.x tb
          \/ (Location.x ta = Location.x tb
              /\ Location.y ta < Location.y tb))).
Proof.
  unfold undirected_lt, Location.ltb, Location.eqb. simpl.
  rewrite !orb_true_iff, !andb_true_iff, !orb_true_iff, !andb_true_iff.
  rewrite !Z.ltb_lt, !Z.eqb_eq. tauto.
Qed.

Lemma ends_reverse s :
  Location.x (lower_end (NodeRefSegment.reverse s)) = Location.x (lower_end s)
  /\ Location.y (lower_end (NodeRefSegment.reverse s))
     = Location.y (lower_end s)
  /\ Location.x (upper_end (NodeRefSegment.reverse s))
     = Location.x (upper_end s)
  /\ Location.y (upper_end (NodeRefSegment.reverse s))
     = Location.y (upper_end s).
Proof.
  unfold lower_end, upper_end, Location.ltb. cbn [NodeRefSegment.reverse
    NodeRefSegment.start NodeRefSegment.stop].
  destruct (NodeRef.location (NodeRefSegment.start s)) as [xa ya].
  destruct (NodeRef.location (NodeRefSegment.stop s)) as [xb yb].
  cbn [Location.x Location.y].
  destruct (Z.ltb_spec xb xa), (Z.ltb_spec xa xb),
    (Z.eqb_spec xb xa), (Z.eqb_spec xa xb),
    (Z.ltb_spec yb ya), (Z.ltb_spec ya yb);
    cbn [orb andb Location.x Location.y]; lia.
Qed.

Lemma undirected_lt_reverse_l a b :
  undirected_lt (NodeRefSegment.reverse a) b = undirected_lt a b.
Proof.
  destruct (ends_reverse a) as (H1 & H2 & H3 & H4).
  unfold undirected_lt, Location.ltb, Location.eqb.
  by rewrite H1, H2, H3, H4.
Qed.

Lemma undirected_lt_reverse_r a b :
  undirected_lt a (NodeRefSegment.reverse b) = undirected_lt a b.
Proof.
  destruct (ends_reverse b) as (H1 & H2 & H3 & H4).
  unfold undirected_lt, Location.ltb, Location.eqb.
  by rewrite H1, H2, H3, H4.
Qed.

Lemma undirected_order_laws : SegmentOrderLaws undirected_order.
Proof.
  split.
  - intros a. apply not_true_is_false.
    change (seg_lt a a) with (undirected_lt a a).
    rewrite undirected_lt_spec. simpl. lia.
  - intros a b c.
    change (undirected_lt a b = true -> undirected_lt b c = true ->
            undirected_lt a c = true).
    rewrite !undirected_lt_spec. simpl. lia.
  - reflexivity.
  - reflexivity.
Qed.

End UndirectedOrder.

(** ** Facts about the pool and the loops over it *)

Module PoolFacts.

Lemma live_alter f p q (pool : segment_pool) :
  live (alter f p pool) q <-> live pool q.
Proof.
  unfold live. destruct (decide (p = q)) as [->|Hne].
  - rewrite lookup_alter_eq. apply fmap_is_Some.
  - by rewrite lookup_alter_ne.
Qed.

Lemma valid_alter f p q (pool : segment_pool) :
  valid (alter f p pool) q <-> valid pool q.
Proof. unfold valid. by rewrite live_alter. Qed.

Lemma Forall_valid_alter f p v (pool : segment_pool) :
  Forall (valid pool) v -> Forall (valid (alter f p pool)) v.
Proof.
  intros Hv. eapply Forall_impl; [exact Hv |].
  intros q. by rewrite valid_alter.
Qed.

Lemma alter_all_cons f p v (pool : segment_pool) :
  alter_all f (p :: v) pool = alter_all f v (alter f p pool).
Proof. reflexivity. Qed.

Lemma for_each_update f v (pool : segment_pool) :
  Forall (live pool) v ->
  for_each v (update f) pool = Ok tt (alter_all f v pool).
Proof.
  revert pool. induction v as [|p v IH]; intros pool Hv; [reflexivity |].
  inversion Hv as [|? ? [s Hs] Hv']; subst.
  rewrite alter_all_cons. cbn [for_each].
  unfold bind, update at 1. rewrite Hs. apply IH.
  eapply Forall_impl; [exact Hv' |]. intros q. by rewrite live_alter.
Qed.

Lemma lookup_alter_all f v (pool : segment_pool) q :
  alter_all f v pool !! q
  = Nat.iter (count_occ N.eq_dec v q) f <$> pool !! q.
Proof.
  revert pool. induction v as [|p v IH]; intros pool.
  - simpl. by destruct (pool !! q).
  - rewrite alter_all_cons, IH. simpl count_occ.
    destruct (N.eq_dec p q) as [->|Hne].
    + rewrite lookup_alter_eq. destruct (pool !! q) as [s|]; [|done].
      simpl. f_equal. apply SegmentFacts.iter_comm.
    + by rewrite lookup_alter_ne.
Qed.

Lemma live_alter_all f v (pool : segment_pool) q :
  live (alter_all f v pool) q <-> live pool q.
Proof. unfold live. rewrite lookup_alter_all. apply fmap_is_Some. Qed.

Lemma det_at_set_ring this p (pool : segment_pool) q :
  det_at (alter (NodeRefSegment.set_ring this) p pool) q = det_at pool q.
Proof.
  unfold det_at. destruct (decide (p = q)) as [->|Hne].
  - rewrite lookup_alter_eq. by destruct (pool !! q).
  - by rewrite lookup_alter_ne.
Qed.

Lemma sum_det_set_ring this p (pool : segment_pool) v :
  sum_det (alter (NodeRefSegment.set_ring this) p pool) v = sum_det pool v.
Proof.
  induction v as [|q v IH]; [reflexivity |].
  simpl. by rewrite det_at_set_ring, IH.
Qed.

Lemma sum_det_cons (pool : segment_pool) p v :
  sum_det pool (p :: v) = det_at pool p + sum_det pool v.
Proof. reflexivity. Qed.

Lemma det_at_Some (pool : segment_pool) p s :
  pool !! p = Some s -> det_at pool p = NodeRefSegment.det s.
Proof. unfold det_at. by intros ->. Qed.

Lemma sum_det_app (pool : segment_pool) v w :
  sum_det pool (v ++ w) = sum_det pool v + sum_det pool w.
Proof. induction v as [|q v IH]; simpl; lia. Qed.

End PoolFacts.

(** ** Facts about the ring operations *)

Module RingFacts.

Import PoolFacts.

Section WithOrder.

Context {order : SegmentOrder}.
Variable this : ring_ptr.

(** One [add_segment_back] on valid pointers, in closed form. *)
Lemma add_segment_back_ok r p (pool : segment_pool) s m :
  p <> nullptr ->
  pool !! p = Some s ->
  pool !! m_min_segment r = Some m ->
  add_segment_back this r p pool
  = Ok {| m_segments := m_segments r ++ [p];
          m_inner := m_inner r;
          m_min_segment := if seg_lt s m then p else m_min_segment r;
          m_outer_ring := m_outer_ring r;
          m_sum := Int64.add (m_sum r) (NodeRefSegment.det s) |}
       (alter (NodeRefSegment.set_ring this) p pool).
Proof.
  intros Hnull Hs Hm.
  unfold add_segment_back, bind, c_assert, deref, update.
  apply N.eqb_neq in Hnull. rewrite Hnull. simpl.
  rewrite Hs. simpl. rewrite Hm. simpl. rewrite Hs. simpl.
  rewrite lookup_alter_eq, Hs. reflexivity.
Qed.

(** The running sum of the loop, starting from [init]. *)
Lemma add_segments_back_ok v : forall r (pool : segment_pool),
  Forall (valid pool) v ->
  live pool (m_min_segment r) ->
  exists r',
    add_segments_back this r v pool
    = Ok r' (alter_all (NodeRefSegment.set_ring this) v pool)
    /\ m_segments r' = m_segments r ++ v
    /\ m_inner r' = m_inner r
    /\ m_outer_ring r' = m_outer_ring r
    /\ Int64.wrap (m_sum r') = Int64.wrap (m_sum r + sum_det pool v)
    /\ (v <> [] -> Int64.in_range (m_sum r')).
Proof.
  induction v as [|p v IH]; intros r pool Hv Hmin.
  - exists r. simpl. rewrite app_nil_r, Z.add_0_r. by repeat split.
  - inversion Hv as [|? ? [Hnull [s Hs]] Hv']; subst.
    destruct Hmin as [m Hm].
    pose proof (add_segment_back_ok r p pool s m Hnull Hs Hm) as Hstep.
    set (r1 := {| m_segments := m_segments r ++ [p];
                  m_inner := m_inner r;
                  m_min_segment := if seg_lt s m then p else m_min_segment r;
                  m_outer_ring := m_outer_ring r;
                  m_sum := Int64.add (m_sum r) (NodeRefSegment.det s) |})
      in Hstep.
    set (pool1 := alter (NodeRefSegment.set_ring this) p pool) in Hstep.
    destruct (IH r1 pool1) as (r' & Hrun & Hsegs & Hin & Hout & Hsum & Hrange).
    { by apply Forall_valid_alter. }
    { apply live_alter. subst r1. simpl.
      destruct (seg_lt s m); unfold live; eauto. }
    exists r'. rewrite alter_all_cons. cbn [add_segments_back]. unfold bind.
    rewrite Hstep. split; [exact Hrun |].
    split; [rewrite Hsegs; subst r1; simpl; by rewrite <- app_assoc |].
    split; [by rewrite Hin |]. split; [by rewrite Hout |].
    split.
    + rewrite Hsum. subst r1 pool1. cbn [m_sum].
      rewrite sum_det_set_ring, sum_det_cons, (det_at_Some pool p s Hs).
      unfold Int64.add. rewrite Int64Facts.wrap_add_l. f_equal. lia.
    + intros _. destruct v as [|p' v'].
      * simpl in Hrun. injection Hrun as <-. subst r1. simpl.
        apply Int64Facts.wrap_in_range.
      * by apply Hrange.
Qed.

Lemma det_at_alter_all_set_ring v (pool : segment_pool) q :
  det_at (alter_all (NodeRefSegment.set_ring this) v pool) q = det_at pool q.
Proof.
  revert pool. induction v as [|p v IH]; intros pool; [reflexivity |].
  by rewrite alter_all_cons, IH, det_at_set_ring.
Qed.

Lemma sum_det_alter_all_set_ring v (pool : segment_pool) w :
  sum_det (alter_all (NodeRefSegment.set_ring this) v pool) w
  = sum_det pool w.
Proof.
  induction w as [|q w IH]; [reflexivity |].
  simpl. by rewrite det_at_alter_all_set_ring, IH.
Qed.

(** Overwriting the ring back-reference of one segment does not change
    how the segments of the pool compare. *)
Lemma lookup_set_ring_lt (laws : SegmentOrderLaws order)
  p (pool : segment_pool) q s :
  alter (NodeRefSegment.set_ring this) p pool !! q = Some s ->
  exists s0, pool !! q = Some s0
    /\ (forall a, seg_lt s a = seg_lt s0 a)
    /\ (forall a, seg_lt a s = seg_lt a s0).
Proof.
  destruct (decide (p = q)) as [->|Hne].
  - rewrite lookup_alter_eq. destruct (pool !! q) as [s0|]; [|done].
    intros [= <-]. exists s0. split; [done |]. split; intros a.
    + apply (seg_lt_set_ring_l _ laws).
    + apply (seg_lt_set_ring_r _ laws).
  - rewrite lookup_alter_ne by done. intros Hq. by exists s.
Qed.

(** One [add_segment_back] keeps the cached minimum a minimum. *)
Lemma add_segment_back_min (laws : SegmentOrderLaws order)
  r p (pool : segment_pool) r' pool' :
  valid pool p ->
  is_minimum pool (m_segments r) (m_min_segment r) ->
  add_segment_back this r p pool = Ok r' pool' ->
  is_minimum pool' (m_segments r') (m_min_segment r').
Proof.
  intros [Hnull [s Hs]] (Hin & m & Hm & Hleast) Hrun.
  rewrite (add_segment_back_ok r p pool s m Hnull Hs Hm) in Hrun.
  injection Hrun as <- <-. cbn [m_segments m_min_segment].
  destruct (seg_lt s m) eqn:Hlt.
  - split; [set_solver |].
    exists (NodeRefSegment.set_ring this s).
    split; [by rewrite lookup_alter_eq, Hs |].
    intros q sq Hq Hsq.
    destruct (lookup_set_ring_lt laws _ _ _ _ Hsq) as (s0 & Hs0 & Hl & _).
    rewrite Hl, (seg_lt_set_ring_r _ laws).
    apply elem_of_app in Hq as [Hq | Hq].
    + destruct (seg_lt s0 s) eqn:Hs0s; [|done].
      rewrite <- (Hleast q s0 Hq Hs0).
      symmetry. by apply (seg_lt_trans _ laws) with s.
    + apply list_elem_of_singleton in Hq as ->.
      rewrite Hs in Hs0. injection Hs0 as <-.
      apply (seg_lt_irrefl _ laws).
  - split; [set_solver |].
    destruct (alter (NodeRefSegment.set_ring this) p pool
                !! m_min_segment r) as [m'|] eqn:Hm'.
    2:{ apply eq_None_not_Some in Hm'. exfalso. apply Hm'.
        apply live_alter. unfold live. eauto. }
    exists m'. split; [done |].
    destruct (lookup_set_ring_lt laws _ _ _ _ Hm') as (m0 & Hm0 & _ & Hr).
    rewrite Hm in Hm0. injection Hm0 as <-.
    intros q sq Hq Hsq.
    destruct (lookup_set_ring_lt laws _ _ _ _ Hsq) as (s0 & Hs0 & Hl & _).
    rewrite Hl, Hr.
    apply elem_of_app in Hq as [Hq | Hq].
    + by apply (Hleast q s0).
    + apply list_elem_of_singleton in Hq as ->.
      rewrite Hs in Hs0. by injection Hs0 as <-.
Qed.

Lemma add_segments_back_min (laws : SegmentOrderLaws order) v :
  forall r (pool : segment_pool) r' pool',
  Forall (valid pool) v ->
  is_minimum pool (m_segments r) (m_min_segment r) ->
  add_segments_back this r v pool = Ok r' pool' ->
  is_minimum pool' (m_segments r') (m_min_segment r').
Proof.
  induction v as [|p v IH]; intros r pool r' pool' Hv Hmin Hrun.
  - simpl in Hrun. by injection Hrun as <- <-.
  - inversion Hv as [|? ? Hp Hv']; subst.
    cbn [add_segments_back] in Hrun. unfold bind in Hrun.
    destruct (add_segment_back this r p pool) as [r1 pool1|] eqn:Hstep;
      [|done].
    pose proof Hstep as Hstep'.
    destruct Hp as [Hnull [s Hs]]. destruct Hmin as (Hin & m & Hm & Hleast).
    rewrite (add_segment_back_ok r p pool s m Hnull Hs Hm) in Hstep'.
    injection Hstep' as _ Hpool.
    apply (IH r1 pool1 r' pool'); [| |exact Hrun].
    + subst pool1. by apply Forall_valid_alter.
    + eapply add_segment_back_min; [exact laws | | |exact Hstep].
      * split; [done |]. unfold live. eauto.
      * split; eauto.
Qed.

End WithOrder.

(** [reverse], [reset] and [mark_direction_done] on live pointers. *)
Lemma reverse_ok r (pool : segment_pool) :
  Forall (live pool) (m_segments r) ->
  reverse r pool
  = Ok {| m_segments := rev (m_segments r); m_inner := m_inner r;
          m_min_segment := m_min_segment r;
          m_outer_ring := m_outer_ring r;
          m_sum := Int64.neg (m_sum r) |}
       (alter_all NodeRefSegment.reverse (m_segments r) pool).
Proof.
  intros Hv. unfold reverse, bind. by rewrite for_each_update.
Qed.

Lemma reset_ok r (pool : segment_pool) :
  Forall (live pool) (m_segments r) ->
  reset r pool
  = Ok {| m_segments := m_segments r; m_inner := [];
          m_min_segment := m_min_segment r;
          m_outer_ring := nullptr; m_sum := m_sum r |}
       (alter_all NodeRefSegment.mark_direction_not_done
          (m_segments r) pool).
Proof.
  intros Hv. unfold reset, bind. by rewrite for_each_update.
Qed.

Lemma alter_all_reverse_twice v (pool : segment_pool) :
  alter_all NodeRefSegment.reverse (rev v)
    (alter_all NodeRefSegment.reverse v pool) = pool.
Proof.
  apply map_eq. intros q.
  rewrite !lookup_alter_all, count_occ_rev.
  destruct (pool !! q) as [s|]; [|done]. simpl. f_equal.
  rewrite <- Nat.iter_add. apply SegmentFacts.iter_reverse_even.
Qed.

End RingFacts.

(** ** The cached minimum and the orientation of the segments

    Whether [reverse()] can leave [m_min_segment] behind is a property of
    the order on segments. *)

Module MinAcrossReverse.

Section Orientation.

Context {order : SegmentOrder}.
Hypothesis laws : SegmentOrderLaws order.

Lemma seg_lt_asym a b : seg_lt a b = true -> seg_lt b a = false.
Proof.
  intros Hab. destruct (seg_lt b a) eqn:Hba; [|done].
  rewrite <- (seg_lt_irrefl _ laws a).
  symmetry. by apply (seg_lt_trans _ laws) with b.
Qed.

(** An order that reads a segment the same way in both directions keeps
    the cached minimum a minimum across [reverse()]. *)
Lemma reverse_keeps_minimum
  (Hl : forall a b, seg_lt (NodeRefSegment.reverse a) b = seg_lt a b)
  (Hr : forall a b, seg_lt a (NodeRefSegment.reverse b) = seg_lt a b)
  r (pool : segment_pool) r' pool' :
  Forall (live pool) (m_segments r) ->
  is_minimum pool (m_segments r) (min_segment r) ->
  reverse r pool = Ok r' pool' ->
  is_minimum pool' (m_segments r') (min_segment r').
Proof.
  assert (Hil : forall n a b,
            seg_lt (Nat.iter n NodeRefSegment.reverse a) b = seg_lt a b).
  { induction n as [|n IH]; intros a b; [done |]. simpl. by rewrite Hl. }
  assert (Hir : forall n a b,
            seg_lt a (Nat.iter n NodeRefSegment.reverse b) = seg_lt a b).
  { induction n as [|n IH]; intros a b; [done |]. simpl. by rewrite Hr. }
  intros Hlive (Hin & m & Hm & Hleast) Hrun.
  rewrite (RingFacts.reverse_ok r pool Hlive) in Hrun.
  injection Hrun as <- <-. unfold min_segment in *.
  cbn [m_segments m_min_segment].
  split.
  - apply list_elem_of_In, in_rev. rewrite rev_involutive.
    by apply list_elem_of_In.
  - eexists. split.
    + by rewrite PoolFacts.lookup_alter_all, Hm.
    + intros q s Hq Hs.
      rewrite PoolFacts.lookup_alter_all in Hs.
      destruct (pool !! q) as [s0|] eqn:Hs0; [|done].
      injection Hs as <-. rewrite Hil, Hir.
      apply (Hleast q s0); [|done].
      apply list_elem_of_In, in_rev. by apply list_elem_of_In.
Qed.

(** An order under which two segments change places when both are
    reversed lets the cached minimum go stale: the ring made of the two
    has the smaller one cached, and after [reverse()] the cached segment
    is the larger one. *)
Lemma reverse_loses_minimum this a b :
  seg_lt a b = true ->
  seg_lt (NodeRefSegment.reverse b) (NodeRefSegment.reverse a) = true ->
  exists r pool1 r' pool2,
    build this 1%N [2%N] (<[1%N := a]> (<[2%N := b]> ∅)) = Ok r pool1
    /\ is_minimum pool1 (m_segments r) (min_segment r)
    /\ reverse r pool1 = Ok r' pool2
    /\ min_segment r' = min_segment r
    /\ ~ is_minimum pool2 (m_segments r') (min_segment r').
Proof.
  intros Hab Hba.
  pose proof (seg_lt_asym a b Hab) as Hnot.
  eexists _, _, _, _. split.
  { unfold build, create, bind.
    erewrite RingFacts.add_segment_back_ok;
      [|done | reflexivity | reflexivity].
    rewrite (seg_lt_irrefl _ laws). cbn [add_segments_back]. unfold bind.
    erewrite RingFacts.add_segment_back_ok;
      [|done | reflexivity | reflexivity].
    cbn [m_segments m_min_segment m_inner m_outer_ring m_sum app].
    rewrite (seg_lt_set_ring_r _ laws), Hnot. reflexivity. }
  unfold min_segment. cbn [m_segments m_min_segment].
  split.
  { split; [set_solver |]. eexists. split; [reflexivity |].
    intros q s Hq Hs.
    repeat (apply elem_of_cons in Hq as [-> | Hq]);
      [| |by apply elem_of_nil in Hq];
      rewrite ?lookup_alter_eq, ?lookup_alter_ne, ?lookup_insert_eq,
        ?lookup_insert_ne, ?lookup_alter_eq, ?lookup_insert_eq in Hs by done;
      injection Hs as <-;
      rewrite (seg_lt_set_ring_l _ laws), (seg_lt_set_ring_r _ laws).
    - apply (seg_lt_irrefl _ laws).
    - exact Hnot. }
  split.
  { rewrite RingFacts.reverse_ok; [reflexivity |].
    cbn [m_segments]. solve_valid. }
  split; [reflexivity |].
  cbn [m_segments m_min_segment].
  intros (_ & m & Hm & Hleast).
  vm_compute in Hm. injection Hm as <-.
  specialize (Hleast 2%N
    (NodeRefSegment.set_ring this (NodeRefSegment.reverse b))
    ltac:(set_solver) eq_refl).
  change (seg_lt (NodeRefSegment.set_ring this (NodeRefSegment.reverse b))
            (NodeRefSegment.set_ring this (NodeRefSegment.reverse a))
          = false) in Hleast.
  rewrite (seg_lt_set_ring_l _ laws), (seg_lt_set_ring_r _ laws), Hba
    in Hleast.
  discriminate Hleast.
Qed.

End Orientation.

End MinAcrossReverse.

(** ** The ring invariants after construction *)


(** C1: for a ring made by [create] and then any sequence of
    [add_segment_back] calls on valid segment pointers, construction
    succeeds and [m_sum] is the sum of [det()] over the segments of the
    ring, in [int64_t] arithmetic; it is the exact sum whenever that sum
    fits in 64 bits. *)
Theorem build_sum_is_sum_of_det (order : SegmentOrder) (this : ring_ptr)
  (pool : segment_pool) (p : seg_ptr) (ps : list N) :
  valid pool p ->
  Forall (valid pool) ps ->
  exists r pool',
    build this p ps pool = Ok r pool'
    /\ m_segments r = p :: ps
    /\ sum_consistent pool' r
    /\ (Int64.in_range (sum_det pool' (m_segments r)) ->
        sum r = sum_det pool' (m_segments r)).
Proof.
  intros Hp Hps.
  set (r0 := {| m_segments := []; m_inner := []; m_min_segment := p;
                m_outer_ring := nullptr; m_sum := 0 |}).
  destruct (RingFacts.add_segments_back_ok this (p :: ps) r0 pool)
    as (r & Hrun & Hsegs & _ & _ & Hsum & Hrange).
  { by constructor. }
  { apply Hp. }
  assert (Hcons : sum_consistent
                    (alter_all (NodeRefSegment.set_ring this) (p :: ps) pool)
                    r).
  { unfold sum_consistent.
    rewrite RingFacts.sum_det_alter_all_set_ring, Hsegs.
    rewrite <- (Int64Facts.wrap_id (m_sum r)) by (by apply Hrange).
    exact Hsum. }
  exists r, (alter_all (NodeRefSegment.set_ring this) (p :: ps) pool).
  split; [exact Hrun |]. split; [exact Hsegs |]. split; [exact Hcons |].
  intros Hfits. unfold sum. rewrite Hcons. by apply Int64Facts.wrap_id.
Qed.

Lemma build_sum_is_sum_of_det_witness :
  exists r pool',
    build (order := lex_order) Sample.ring_addr 1%N [2%N; 3%N] Sample.pool
    = Ok r pool'
    /\ m_segments r = [1%N; 2%N; 3%N]
    /\ sum_consistent pool' r
    /\ (Int64.in_range (sum_det pool' (m_segments r)) ->
        sum r = sum_det pool' (m_segments r)).
Proof.
  apply (build_sum_is_sum_of_det lex_order Sample.ring_addr Sample.pool
           1%N [2%N; 3%N]); solve_valid.
Defined.

(** C2: for a ring made by [create] and then any sequence of
    [add_segment_back] calls on valid segment pointers, [min_segment()]
    points to a segment of the ring, and no segment of the ring is smaller
    than it under the order on segments. *)
Theorem build_min_segment_is_minimum (order : SegmentOrder)
  (laws : SegmentOrderLaws order) (this : ring_ptr)
  (pool : segment_pool) (p : seg_ptr) (ps : list N) :
  valid pool p ->
  Forall (valid pool) ps ->
  exists r pool',
    build this p ps pool = Ok r pool'
    /\ m_segments r = p :: ps
    /\ is_minimum pool' (m_segments r) (min_segment r).
Proof.
  intros Hp Hps.
  set (r0 := {| m_segments := []; m_inner := []; m_min_segment := p;
                m_outer_ring := nullptr; m_sum := 0 |}).
  destruct (RingFacts.add_segments_back_ok this (p :: ps) r0 pool)
    as (r & Hrun & Hsegs & _).
  { by constructor. }
  { apply Hp. }
  exists r, (alter_all (NodeRefSegment.set_ring this) (p :: ps) pool).
  split; [exact Hrun |]. split; [exact Hsegs |].
  (* the first step, from the constructor *)
  destruct Hp as [Hnull [s Hs]].
  change (add_segments_back this r0 (p :: ps) pool)
    with (bind (add_segment_back this r0 p)
               (fun r' => add_segments_back this r' ps) pool) in Hrun.
  unfold bind in Hrun.
  rewrite (RingFacts.add_segment_back_ok this r0 p pool s s Hnull Hs Hs)
    in Hrun.
  rewrite (seg_lt_irrefl _ laws) in Hrun. cbn [m_segments m_inner
    m_min_segment m_outer_ring m_sum r0 app] in Hrun.
  eapply (RingFacts.add_segments_back_min this laws ps); [| |exact Hrun].
  - by apply PoolFacts.Forall_valid_alter.
  - cbn [m_segments m_min_segment]. split; [set_solver |].
    exists (NodeRefSegment.set_ring this s).
    split; [by rewrite lookup_alter_eq, Hs |].
    intros q sq Hq Hsq. apply list_elem_of_singleton in Hq as ->.
    rewrite lookup_alter_eq, Hs in Hsq. injection Hsq as <-.
    apply (seg_lt_irrefl _ laws).
Qed.

Lemma build_min_segment_is_minimum_witness :
  exists r pool',
    build (order := lex_order) Sample.ring_addr 1%N [2%N; 3%N] Sample.pool
    = Ok r pool'
    /\ m_segments r = [1%N; 2%N; 3%N]
    /\ is_minimum (order := lex_order) pool' (m_segments r) (min_segment r).
Proof.
  apply (build_min_segment_is_minimum lex_order LexOrder.lex_order_laws
           Sample.ring_addr Sample.pool 1%N [2%N; 3%N]); solve_valid.
Defined.

(** ** Orientation *)

(** C4: [is_cw()] is true exactly when [m_sum <= 0].  [fix_direction()]
    reverses the ring exactly when [is_cw() == is_outer()], that is for an
    outer ring with [m_sum <= 0] and for an inner ring with [m_sum > 0];
    otherwise it leaves the ring and the pool as they are.  On a ring whose
    segment pointers are live the reversal reverses the vector, reverses
    every segment through its pointer and negates [m_sum]. *)
Theorem fix_direction_rule (r : ProtoRing) (pool : segment_pool) :
  (is_cw r = true <-> sum r <= 0)
  /\ (Bool.eqb (is_cw r) (is_outer r) = true <->
      (is_outer r = true /\ sum r <= 0) \/ (is_outer r = false /\ 0 < sum r))
  /\ fix_direction r pool
     = (if Bool.eqb (is_cw r) (is_outer r) then reverse r pool else Ok r pool)
  /\ (Forall (live pool) (m_segments r) ->
      Bool.eqb (is_cw r) (is_outer r) = true ->
      fix_direction r pool
      = Ok {| m_segments := rev (m_segments r); m_inner := m_inner r;
              m_min_segment := m_min_segment r;
              m_outer_ring := m_outer_ring r;
              m_sum := Int64.neg (m_sum r) |}
           (alter_all NodeRefSegment.reverse (m_segments r) pool)).
Proof.
  assert (Hcw : is_cw r = true <-> sum r <= 0).
  { unfold is_cw, sum. apply Z.leb_le. }
  split; [exact Hcw |]. split.
  - unfold is_cw, sum. rewrite eqb_true_iff.
    destruct (Z.leb_spec (m_sum r) 0) as [Hle | Hgt], (is_outer r);
      split; intros H;
      first [ reflexivity
            | discriminate H
            | left; split; [reflexivity | lia]
            | right; split; [reflexivity | lia]
            | destruct H as [[H1 H2] | [H1 H2]];
              first [discriminate H1 | lia] ].
  - split.
    + unfold fix_direction. by destruct (Bool.eqb (is_cw r) (is_outer r)).
    + intros Hlive Hguard. unfold fix_direction. rewrite Hguard.
      by apply RingFacts.reverse_ok.
Qed.

Lemma fix_direction_rule_witness :
  fix_direction Sample.triangle Sample.pool
  = Ok {| m_segments := [3%N; 2%N; 1%N]; m_inner := [];
          m_min_segment := 1%N; m_outer_ring := nullptr; m_sum := 5 |}
       (alter_all NodeRefSegment.reverse [1%N; 2%N; 3%N] Sample.pool).
Proof.
  apply (proj2 (proj2 (proj2
           (fix_direction_rule Sample.triangle Sample.pool)))).
  - solve_valid.
  - reflexivity.
Defined.

(** ** Nesting *)

(** C6: with assertions compiled in, [add_inner_ring] on a ring whose
    [m_outer_ring] is set stops on a failed assertion, which is
    [assert(!m_outer_ring)] whenever the argument is non-null, and
    [set_outer_ring] on a ring with inner rings stops on a failed assertion,
    which is [assert(m_inner.empty())] whenever the argument is non-null.
    When [m_outer_ring] is unset, [add_inner_ring] never fails
    [assert(!m_outer_ring)] and, for a non-null argument, appends it; when
    [m_inner] is empty, [set_outer_ring] never fails
    [assert(m_inner.empty())] and, for a non-null argument, stores it. *)
Theorem nesting_assertions (r : ProtoRing) (ring outer : ring_ptr)
  (pool : segment_pool) :
  (outer_ring r <> nullptr ->
     exists a, add_inner_ring r ring pool = Abort (assertion_failed a)
       /\ (ring <> nullptr -> a = assert_not_m_outer_ring))
  /\ (inner_rings r <> [] ->
     exists a, set_outer_ring r outer pool = Abort (assertion_failed a)
       /\ (outer <> nullptr -> a = assert_m_inner_empty))
  /\ (outer_ring r = nullptr ->
     add_inner_ring r ring pool
       <> Abort (assertion_failed assert_not_m_outer_ring)
     /\ (ring <> nullptr ->
         add_inner_ring r ring pool
         = Ok {| m_segments := m_segments r;
                 m_inner := m_inner r ++ [ring];
                 m_min_segment := m_min_segment r;
                 m_outer_ring := m_outer_ring r;
                 m_sum := m_sum r |} pool))
  /\ (inner_rings r = [] ->
     set_outer_ring r outer pool
       <> Abort (assertion_failed assert_m_inner_empty)
     /\ (outer <> nullptr ->
         set_outer_ring r outer pool
         = Ok {| m_segments := m_segments r;
                 m_inner := m_inner r;
                 m_min_segment := m_min_segment r;
                 m_outer_ring := outer;
                 m_sum := m_sum r |} pool)).
Proof.
  unfold outer_ring, inner_rings, add_inner_ring, set_outer_ring,
    bind, c_assert, ret, abort.
  split; [|split; [|split]].
  - intros Hinner. apply N.eqb_neq in Hinner. rewrite Hinner.
    destruct (ring =? nullptr)%N eqn:Hring; simpl.
    + exists assert_ring. split; [done |].
      intros Hne. by apply N.eqb_neq in Hne; rewrite Hne in Hring.
    + by exists assert_not_m_outer_ring.
  - intros Hnonempty.
    destruct (outer =? nullptr)%N eqn:Houter; simpl.
    + exists assert_outer_ring. split; [done |].
      intros Hne. by apply N.eqb_neq in Hne; rewrite Hne in Houter.
    + destruct (m_inner r); [done |]. by exists assert_m_inner_empty.
  - intros Hunset. rewrite Hunset. split.
    + by destruct (ring =? nullptr)%N.
    + intros Hne. apply N.eqb_neq in Hne. by rewrite Hne.
  - intros Hempty. rewrite Hempty. split.
    + by destruct (outer =? nullptr)%N.
    + intros Hne. apply N.eqb_neq in Hne. by rewrite Hne.
Qed.

Lemma nesting_assertions_witness :
  (exists a, add_inner_ring Sample.hole 61%N Sample.pool
             = Abort (assertion_failed a)
     /\ (61%N <> nullptr -> a = assert_not_m_outer_ring))
  /\ (exists a, set_outer_ring Sample.container 60%N Sample.pool
                = Abort (assertion_failed a)
     /\ (60%N <> nullptr -> a = assert_m_inner_empty))
  /\ add_inner_ring Sample.triangle 61%N Sample.pool
     = Ok {| m_segments := [1%N; 2%N; 3%N]; m_inner := [61%N];
             m_min_segment := 1%N; m_outer_ring := nullptr;
             m_sum := -5 |} Sample.pool
  /\ set_outer_ring Sample.triangle 60%N Sample.pool
     = Ok Sample.hole Sample.pool.
Proof.
  split; [|split; [|split]].
  - apply (proj1 (nesting_assertions Sample.hole 61%N 60%N Sample.pool)).
    discriminate.
  - apply (proj1 (proj2
             (nesting_assertions Sample.container 61%N 60%N Sample.pool))).
    discriminate.
  - apply (proj1 (proj2 (proj2
             (nesting_assertions Sample.triangle 61%N 60%N Sample.pool)))).
    + reflexivity.
    + discriminate.
  - apply (proj2 (proj2 (proj2
             (nesting_assertions Sample.triangle 61%N 60%N Sample.pool)))).
    + reflexivity.
    + discriminate.
Defined.

(** ** Closure *)

(** C8: on a ring with at least one segment, whose first and last segment
    pointers are live, [closed()] returns true exactly when the location of
    the start of the first segment is the location of the stop of the last
    segment.  Node ids play no part: the result depends on the two
    locations only. *)
Theorem closed_iff_same_location (r : ProtoRing) (pool : segment_pool)
  (pf pl : seg_ptr) (sf sl : NodeRefSegment.t) :
  head (m_segments r) = Some pf ->
  last (m_segments r) = Some pl ->
  pool !! pf = Some sf ->
  pool !! pl = Some sl ->
  exists b,
    closed r pool = Ok b pool
    /\ (b = true <->
        NodeRef.location (NodeRefSegment.start sf)
        = NodeRef.location (NodeRefSegment.stop sl)).
Proof.
  intros Hhead Hlast Hsf Hsl.
  exists (Location.eqb (NodeRef.location (NodeRefSegment.start sf))
                       (NodeRef.location (NodeRefSegment.stop sl))).
  split.
  - unfold closed, get_node_ref_start, get_node_ref_stop, bind, front, back.
    destruct (m_segments r) as [|p v] eqn:Hsegs; [done |].
    simpl in Hhead. injection Hhead as ->.
    unfold ret at 1. unfold deref at 1. rewrite Hsf.
    unfold ret at 1. rewrite Hlast.
    unfold ret at 1. unfold deref. rewrite Hsl. reflexivity.
  - unfold Location.eqb. rewrite andb_true_iff, !Z.eqb_eq.
    destruct (NodeRef.location (NodeRefSegment.start sf)) as [x1 y1].
    destruct (NodeRef.location (NodeRefSegment.stop sl)) as [x2 y2].
    simpl. split; [intros [-> ->]; reflexivity | intros [= -> ->]; done].
Qed.

Lemma closed_iff_same_location_witness :
  exists b,
    closed Sample.triangle Sample.pool = Ok b Sample.pool
    /\ (b = true <->
        NodeRef.location (NodeRefSegment.start (Sample.segment Sample.p1 Sample.p2))
        = NodeRef.location (NodeRefSegment.stop (Sample.segment Sample.p3 Sample.p1'))).
Proof.
  apply (closed_iff_same_location Sample.triangle Sample.pool 1%N 3%N
           (Sample.segment Sample.p1 Sample.p2)
           (Sample.segment Sample.p3 Sample.p1')); reflexivity.
Defined.

(** ** Reversal and reset *)

(** C5: on a ring whose segment pointers are live, [reverse()] twice gives
    back the ring and the pool it started from: the vector of segments in
    its order, every segment with its start and stop, and [m_sum]. *)
Theorem reverse_twice (r : ProtoRing) (pool : segment_pool) :
  Forall (live pool) (m_segments r) ->
  Int64.in_range (m_sum r) ->
  (r1 <- reverse r ;; reverse r1) pool = Ok r pool.
Proof.
  intros Hlive Hrange. unfold bind.
  rewrite (RingFacts.reverse_ok r pool Hlive).
  rewrite RingFacts.reverse_ok.
  - cbn [m_segments m_inner m_min_segment m_outer_ring m_sum].
    rewrite rev_involutive, (Int64Facts.neg_involutive _ Hrange).
    rewrite RingFacts.alter_all_reverse_twice. by destruct r.
  - cbn [m_segments]. apply Forall_forall. intros q Hq.
    apply PoolFacts.live_alter_all.
    rewrite Forall_forall in Hlive. apply Hlive.
    apply list_elem_of_In. apply list_elem_of_In in Hq.
    by apply in_rev.
Qed.

Lemma reverse_twice_witness :
  (r1 <- reverse Sample.triangle ;; reverse r1) Sample.pool
  = Ok Sample.triangle Sample.pool.
Proof.
  apply (reverse_twice Sample.triangle Sample.pool).
  - solve_valid.
  - unfold Int64.in_range, Int64.min_signed, Int64.max_signed. simpl. lia.
Defined.

(** C9: on a ring whose segment pointers are live, [reset()] empties
    [m_inner], unsets [m_outer_ring], so that [is_outer()] is true, and
    clears the direction flag of every segment of the ring, touching
    nothing else of those segments and no other segment of the pool; the
    vector of segments, [m_min_segment] and [m_sum] stay as they were. *)
Theorem reset_effect (r : ProtoRing) (pool : segment_pool) :
  Forall (live pool) (m_segments r) ->
  exists r' pool',
    reset r pool = Ok r' pool'
    /\ inner_rings r' = []
    /\ outer_ring r' = nullptr
    /\ is_outer r' = true
    /\ same_chain r r'
    /\ (forall q, q ∈ m_segments r ->
        exists s, pool !! q = Some s
          /\ pool' !! q = Some (NodeRefSegment.mark_direction_not_done s)
          /\ NodeRefSegment.direction_done
               (NodeRefSegment.mark_direction_not_done s) = false)
    /\ (forall q, q ∉ m_segments r -> pool' !! q = pool !! q).
Proof.
  intros Hlive.
  eexists _, _. split; [by apply RingFacts.reset_ok |].
  split; [done |]. split; [done |]. split; [done |].
  split; [by repeat split |]. split.
  - intros q Hq.
    rewrite Forall_forall in Hlive. destruct (Hlive q Hq) as [s Hs].
    exists s. split; [exact Hs |]. split; [|done].
    rewrite PoolFacts.lookup_alter_all, Hs. simpl. f_equal.
    apply list_elem_of_In, (count_occ_In N.eq_dec) in Hq.
    destruct (count_occ N.eq_dec (m_segments r) q) as [|n]; [lia |].
    apply SegmentFacts.iter_mark_direction_not_done.
  - intros q Hq. rewrite PoolFacts.lookup_alter_all.
    assert (Hzero : count_occ N.eq_dec (m_segments r) q = 0%nat).
    { apply count_occ_not_In. by rewrite <- list_elem_of_In. }
    rewrite Hzero. simpl. by destruct (pool !! q).
Qed.

Lemma reset_effect_witness :
  exists r' pool',
    reset Sample.hole Sample.pool = Ok r' pool'
    /\ inner_rings r' = []
    /\ outer_ring r' = nullptr
    /\ is_outer r' = true
    /\ same_chain Sample.hole r'
    /\ (forall q, q ∈ m_segments Sample.hole ->
        exists s, Sample.pool !! q = Some s
          /\ pool' !! q = Some (NodeRefSegment.mark_direction_not_done s)
          /\ NodeRefSegment.direction_done
               (NodeRefSegment.mark_direction_not_done s) = false)
    /\ (forall q, q ∉ m_segments Sample.hole ->
        pool' !! q = Sample.pool !! q).
Proof.
  apply (reset_effect Sample.hole Sample.pool). solve_valid.
Defined.

(** ** Joining *)

(** C7, as amended: let [other] be a ring whose segment pointers are valid
    and whose [m_sum] is the sum of its segments' [det()].  Then
    [join_forward]
    succeeds, the joined ring holds the segments of both rings, this ring's
    first, so that its segment count is the sum of the two counts, and its
    [m_sum] is the [int64_t] sum of the two sums before the join, which is
    their exact sum whenever that fits in 64 bits.  The endpoints of the
    two chains play no part. *)
Theorem join_forward_counts_and_sums (order : SegmentOrder)
  (this : ring_ptr) (r other : ProtoRing) (pool : segment_pool) :
  Forall (valid pool) (m_segments other) ->
  live pool (m_min_segment r) ->
  Int64.in_range (m_sum r) ->
  sum_consistent pool other ->
  exists r' pool',
    join_forward this r other pool = Ok r' pool'
    /\ m_segments r' = m_segments r ++ m_segments other
    /\ length (m_segments r')
       = (length (m_segments r) + length (m_segments other))%nat
    /\ sum r' = Int64.add (sum r) (sum other)
    /\ (Int64.in_range (sum r + sum other) -> sum r' = sum r + sum other).
Proof.
  intros Hvalid Hmin Hrange Hother.
  destruct (RingFacts.add_segments_back_ok this (m_segments other) r pool
              Hvalid Hmin)
    as (r' & Hrun & Hsegs & _ & _ & Hsum & Hfits).
  assert (Hadd : sum r' = Int64.add (sum r) (sum other)).
  { unfold sum, Int64.add. rewrite Hother, Int64Facts.wrap_add_r, <- Hsum.
    symmetry. apply Int64Facts.wrap_id.
    destruct (m_segments other) as [|p v] eqn:Hv.
    - simpl in Hrun. injection Hrun as <-. exact Hrange.
    - by apply Hfits. }
  exists r', (alter_all (NodeRefSegment.set_ring this) (m_segments other) pool).
  split; [exact Hrun |]. split; [exact Hsegs |].
  split; [by rewrite Hsegs, length_app |].
  split; [exact Hadd |].
  intros Hexact. rewrite Hadd. by apply Int64Facts.add_exact.
Qed.

Lemma join_forward_counts_and_sums_witness :
  exists r' pool',
    join_forward (order := lex_order) Sample.ring_addr
      Sample.chain1 Sample.chain23 Sample.pool = Ok r' pool'
    /\ m_segments r' = [1%N; 2%N; 3%N]
    /\ length (m_segments r') = 3%nat
    /\ sum r' = Int64.add 0 (-5)
    /\ (Int64.in_range (0 + -5) -> sum r' = 0 + -5).
Proof.
  apply (join_forward_counts_and_sums lex_order Sample.ring_addr
           Sample.chain1 Sample.chain23 Sample.pool).
  - solve_valid.
  - solve_valid.
  - unfold Int64.in_range, Int64.min_signed, Int64.max_signed. simpl. lia.
  - reflexivity.
Defined.

(** C7, as stated, fails for a ring whose [m_sum] is not the sum of its
    segments' [det()]: [join_forward] adds the [det()] of every absorbed
    segment, not the [m_sum] of [other].  The ring made of the segment
    (1,0) -> (5,5), the segment back and the first segment again has sum
    5; [reverse()] turns the first segment twice and the second once and
    sets the sum to -5, while the three segments now contribute 5 each.
    Joined behind the ring made of (0,0) -> (1,0), which stops at the node
    where it starts and has sum 0, it gives a ring of four segments with
    sum 15, not -5. *)
Lemma join_forward_adds_current_det :
  exists r2 pool1 r2' pool2 r1 pool3 r' pool4 n,
    build (order := lex_order) Sample.other_addr 1%N [2%N; 1%N]
      Sample.zigzag_pool = Ok r2 pool1
    /\ reverse r2 pool1 = Ok r2' pool2
    /\ create (order := lex_order) Sample.ring_addr 3%N pool2 = Ok r1 pool3
    /\ get_node_ref_stop r1 pool3 = Ok n pool3
    /\ get_node_ref_start r2' pool3 = Ok n pool3
    /\ sum r1 = 0
    /\ sum r2' = -5
    /\ join_forward (order := lex_order) Sample.ring_addr r1 r2' pool3
       = Ok r' pool4
    /\ length (m_segments r') = 4%nat
    /\ sum r' = 15
    /\ sum r' <> Int64.add (sum r1) (sum r2').
Proof.
  eexists _, _, _, _, _, _, _, _, _.
  split; [vm_compute; reflexivity |]. split; [vm_compute; reflexivity |].
  split; [vm_compute; reflexivity |]. split; [vm_compute; reflexivity |].
  split; [vm_compute; reflexivity |]. split; [reflexivity |].
  split; [reflexivity |]. split; [vm_compute; reflexivity |].
  split; [reflexivity |]. split; [reflexivity |].
  vm_compute. discriminate.
Qed.

(** ** Fixing the direction twice *)

(** C3, as amended: on a ring whose segment pointers are live and that is
    either an inner ring or has an [m_sum] other than zero and other than
    the most negative 64-bit value, a second [fix_direction()] right after
    the first finds [is_cw() != is_outer()] and leaves the ring and the
    pool as the first call left them. *)
Theorem fix_direction_twice (r : ProtoRing) (pool : segment_pool) :
  Forall (live pool) (m_segments r) ->
  Int64.in_range (m_sum r) ->
  (is_outer r = true -> sum r <> 0 /\ sum r <> Int64.min_signed) ->
  exists r1 pool1,
    fix_direction r pool = Ok r1 pool1
    /\ Bool.eqb (is_cw r1) (is_outer r1) = false
    /\ fix_direction r1 pool1 = Ok r1 pool1.
Proof.
  intros Hlive Hrange Houter.
  assert (Hstable : forall r1 pool1,
            Bool.eqb (is_cw r1) (is_outer r1) = false ->
            fix_direction r1 pool1 = Ok r1 pool1).
  { intros r1 pool1 Hg. unfold fix_direction. by rewrite Hg. }
  destruct (Bool.eqb (is_cw r) (is_outer r)) eqn:Hguard.
  - eexists _, _. split.
    { unfold fix_direction. rewrite Hguard.
      by apply RingFacts.reverse_ok. }
    assert (Hflip : Bool.eqb
              (is_cw {| m_segments := rev (m_segments r);
                        m_inner := m_inner r;
                        m_min_segment := m_min_segment r;
                        m_outer_ring := m_outer_ring r;
                        m_sum := Int64.neg (m_sum r) |})
              (is_outer r) = false).
    { apply eqb_prop in Hguard. unfold is_cw in *. cbn [m_sum].
      unfold sum in Houter. destruct (is_outer r).
      - destruct Houter as [Hzero Hmin]; [done |].
        apply Z.leb_le in Hguard.
        rewrite Int64Facts.neg_exact by done.
        apply eqb_false_iff. intros Hle. apply Z.leb_le in Hle. lia.
      - apply Z.leb_gt in Hguard.
        rewrite Int64Facts.neg_exact;
          [|done | unfold Int64.min_signed; lia].
        apply eqb_false_iff. intros Hgt. apply Z.leb_gt in Hgt. lia. }
    split; [exact Hflip |]. by apply Hstable.
  - exists r, pool. split; [by apply Hstable |].
    split; [exact Hguard |]. by apply Hstable.
Qed.

Lemma fix_direction_twice_witness :
  exists r1 pool1,
    fix_direction Sample.triangle Sample.pool = Ok r1 pool1
    /\ Bool.eqb (is_cw r1) (is_outer r1) = false
    /\ fix_direction r1 pool1 = Ok r1 pool1.
Proof.
  apply (fix_direction_twice Sample.triangle Sample.pool).
  - solve_valid.
  - unfold Int64.in_range, Int64.min_signed, Int64.max_signed. simpl. lia.
  - intros _. split; discriminate.
Defined.

(** C3, as stated, fails on an outer ring whose [m_sum] is zero.  The
    closed chain (0,0) -> (2,2) -> (2,0) -> (0,2) -> (0,0) is such a ring:
    the first [fix_direction()] reverses it, its sum is still zero, and the
    second call reverses it again. *)
Lemma fix_direction_zero_sum_reverses_again :
  exists r pool0 r1 pool1,
    build (order := lex_order) Sample.ring_addr 1%N [2%N; 3%N; 4%N]
      Sample.bowtie_pool = Ok r pool0
    /\ closed r pool0 = Ok true pool0
    /\ is_outer r = true
    /\ sum r = 0
    /\ fix_direction r pool0 = Ok r1 pool1
    /\ Bool.eqb (is_cw r1) (is_outer r1) = true
    /\ fix_direction r1 pool1 <> Ok r1 pool1.
Proof.
  eexists _, _, _, _.
  split; [vm_compute; reflexivity |]. split; [vm_compute; reflexivity |].
  split; [reflexivity |]. split; [reflexivity |].
  split; [vm_compute; reflexivity |]. split; [reflexivity |].
  intros Hsame.
  assert (Hpool : forall r2 pool2 r3 pool3,
            @Ok ProtoRing r2 pool2 = Ok r3 pool3 ->
            pool2 !! 1%N = pool3 !! 1%N).
  { intros r2 pool2 r3 pool3 [= _ ->]. reflexivity. }
  apply Hpool in Hsame. vm_compute in Hsame. discriminate Hsame.
Qed.

(** ** Two runs from start to end *)

(** The clockwise triangle, seeded with its first segment and grown by two
    appends: it is closed and clockwise; [fix_direction()] on it, an outer
    ring, reverses it, after which the chain runs p1 -> p3 -> p2 -> p1 and
    is no longer clockwise. *)
Example clockwise_triangle_is_fixed :
  exists r pool1 r' pool2,
    build (order := lex_order) Sample.ring_addr 1%N [2%N; 3%N] Sample.pool
    = Ok r pool1
    /\ closed r pool1 = Ok true pool1
    /\ is_cw r = true
    /\ is_outer r = true
    /\ fix_direction r pool1 = Ok r' pool2
    /\ m_segments r' = [3%N; 2%N; 1%N]
    /\ sum r' = 5
    /\ is_cw r' = false
    /\ closed r' pool2 = Ok true pool2
    /\ (NodeRefSegment.start <$> pool2 !! 3%N) = Some Sample.p1'
    /\ (NodeRefSegment.stop <$> pool2 !! 3%N) = Some Sample.p3
    /\ (NodeRefSegment.stop <$> pool2 !! 2%N) = Some Sample.p2
    /\ (NodeRefSegment.stop <$> pool2 !! 1%N) = Some Sample.p1.
Proof.
  eexists _, _, _, _.
  split; [vm_compute; reflexivity |].
  split; [vm_compute; reflexivity |].
  split; [reflexivity |]. split; [reflexivity |].
  split; [vm_compute; reflexivity |].
  repeat split; vm_compute; reflexivity.
Qed.

(** A hole rejects an inner ring; after [reset()] it is an outer ring again
    and accepts two. *)
Example reset_then_add_inner_rings :
  add_inner_ring Sample.hole 61%N Sample.pool
  = Abort (assertion_failed assert_not_m_outer_ring)
  /\ exists r pool1 r',
       reset Sample.hole Sample.pool = Ok r pool1
       /\ is_outer r = true
       /\ (r1 <- add_inner_ring r 61%N ;; add_inner_ring r1 62%N) pool1
          = Ok r' pool1
       /\ inner_rings r' = [61%N; 62%N].
Proof.
  split; [reflexivity |].
  eexists _, _, _.
  split; [vm_compute; reflexivity |]. split; [reflexivity |].
  split; [vm_compute; reflexivity |]. reflexivity.
Qed.

(** ** Which runs succeed, and what a successful run tells *)

Module RunFacts.

Import PoolFacts.

Lemma iter_set_ring this n s :
  Nat.iter (S n) (NodeRefSegment.set_ring this) s
  = NodeRefSegment.set_ring this s.
Proof.
  induction n as [|n IH]; [reflexivity |].
  change (NodeRefSegment.set_ring this
            (Nat.iter (S n) (NodeRefSegment.set_ring this) s)
          = NodeRefSegment.set_ring this s).
  by rewrite IH.
Qed.

Lemma iter_mark_direction_done n s :
  Nat.iter (S n) NodeRefSegment.mark_direction_done s
  = NodeRefSegment.mark_direction_done s.
Proof.
  induction n as [|n IH]; [reflexivity |].
  change (NodeRefSegment.mark_direction_done
            (Nat.iter (S n) NodeRefSegment.mark_direction_done s)
          = NodeRefSegment.mark_direction_done s).
  by rewrite IH.
Qed.

(** An idempotent update run over a vector: the segments of the vector
    get it once, the others are untouched. *)
Lemma lookup_alter_all_idem f v (pool : segment_pool) q
  (Hidem : forall n s, Nat.iter (S n) f s = f s) :
  alter_all f v pool !! q
  = if decide (q ∈ v) then f <$> pool !! q else pool !! q.
Proof.
  rewrite lookup_alter_all.
  destruct (decide (q ∈ v)) as [Hin | Hnot].
  - apply list_elem_of_In, (count_occ_In N.eq_dec) in Hin.
    destruct (count_occ N.eq_dec v q) as [|n]; [lia |].
    destruct (pool !! q) as [s|]; [|done].
    change (Some (Nat.iter (S n) f s) = Some (f s)). by rewrite Hidem.
  - assert (Hzero : count_occ N.eq_dec v q = 0%nat).
    { apply count_occ_not_In. by rewrite <- list_elem_of_In. }
    rewrite Hzero. by destruct (pool !! q).
Qed.

Lemma for_each_update_inv f v (pool : segment_pool) u pool' :
  for_each v (update f) pool = Ok u pool' ->
  Forall (live pool) v /\ pool' = alter_all f v pool.
Proof.
  revert pool. induction v as [|p v IH]; intros pool Hrun.
  - simpl in Hrun. injection Hrun as _ <-. by split.
  - cbn [for_each] in Hrun. unfold bind, update at 1 in Hrun.
    destruct (pool !! p) as [s|] eqn:Hs; [|done].
    destruct (IH _ Hrun) as [Hlive ->]. split; [|done].
    constructor; [by exists s |].
    eapply Forall_impl; [exact Hlive |]. intros q. by rewrite live_alter.
Qed.

Section WithOrder.

Context {order : SegmentOrder}.
Variable this : ring_ptr.

Lemma add_segment_back_inv r p (pool : segment_pool) r' pool' :
  add_segment_back this r p pool = Ok r' pool' ->
  p <> nullptr /\
  exists s m,
    pool !! p = Some s
    /\ pool !! m_min_segment r = Some m
    /\ r' = {| m_segments := m_segments r ++ [p];
               m_inner := m_inner r;
               m_min_segment := if seg_lt s m then p else m_min_segment r;
               m_outer_ring := m_outer_ring r;
               m_sum := Int64.add (m_sum r) (NodeRefSegment.det s) |}
    /\ pool' = alter (NodeRefSegment.set_ring this) p pool.
Proof.
  intros Hrun.
  destruct (N.eqb_spec p nullptr) as [-> | Hnull].
  { unfold add_segment_back, bind, c_assert in Hrun. simpl in Hrun. done. }
  split; [exact Hnull |].
  destruct (pool !! p) as [s|] eqn:Hs.
  2:{ unfold add_segment_back, bind, c_assert, deref in Hrun.
      apply N.eqb_neq in Hnull. rewrite Hnull in Hrun. simpl in Hrun.
      by rewrite Hs in Hrun. }
  destruct (pool !! m_min_segment r) as [m|] eqn:Hm.
  2:{ unfold add_segment_back, bind, c_assert, deref in Hrun.
      apply N.eqb_neq in Hnull. rewrite Hnull in Hrun. simpl in Hrun.
      rewrite Hs in Hrun. simpl in Hrun. by rewrite Hm in Hrun. }
  rewrite (RingFacts.add_segment_back_ok this r p pool s m Hnull Hs Hm)
    in Hrun.
  injection Hrun as <- <-. by exists s, m.
Qed.

Lemma add_segment_back_valid r p (pool : segment_pool) r' pool' :
  add_segment_back this r p pool = Ok r' pool' -> valid pool p.
Proof.
  intros Hrun. apply add_segment_back_inv in Hrun as (Hnull & s & _ & Hs & _).
  split; [done |]. by exists s.
Qed.

Lemma add_segments_back_inv v : forall r (pool : segment_pool) r' pool',
  add_segments_back this r v pool = Ok r' pool' ->
  Forall (valid pool) v.
Proof.
  induction v as [|p v IH]; intros r pool r' pool' Hrun; [constructor |].
  cbn [add_segments_back] in Hrun. unfold bind in Hrun.
  destruct (add_segment_back this r p pool) as [r1 pool1|] eqn:Hstep;
    [|done].
  pose proof (add_segment_back_valid _ _ _ _ _ Hstep) as Hp.
  apply add_segment_back_inv in Hstep as (_ & _ & _ & _ & _ & _ & ->).
  constructor; [exact Hp |].
  eapply Forall_impl; [exact (IH _ _ _ _ Hrun) |].
  intros q. by rewrite valid_alter.
Qed.

End WithOrder.

End RunFacts.

(** ** Construction: when it succeeds and what it does to the pool *)

(** X1: a null pointer stops construction at [assert(segment)]: handed to
    the constructor, or to an [add_segment_back] after any number of calls
    on valid pointers, it makes the run stop on this assertion, and the
    calls that would follow are not made. *)
Theorem build_stops_at_null_segment (order : SegmentOrder) (this : ring_ptr)
  (pool : segment_pool) (p : seg_ptr) (ps qs : list N) :
  build this nullptr qs pool = Abort (assertion_failed assert_segment)
  /\ (valid pool p ->
      Forall (valid pool) ps ->
      build this p (ps ++ nullptr :: qs) pool
      = Abort (assertion_failed assert_segment)).
Proof.
  split; [reflexivity |].
  intros Hp Hps.
  set (r0 := {| m_segments := []; m_inner := []; m_min_segment := p;
                m_outer_ring := nullptr; m_sum := 0 |}).
  change (build this p (ps ++ nullptr :: qs) pool)
    with (add_segments_back this r0 ((p :: ps) ++ nullptr :: qs) pool).
  assert (Happ : forall v w r (pool0 : segment_pool),
            add_segments_back this r (v ++ w) pool0
            = match add_segments_back this r v pool0 with
              | Ok r1 pool1 => add_segments_back this r1 w pool1
              | Abort f => Abort f
              end).
  { induction v as [|q v IH]; intros w r pool0; [reflexivity |].
    cbn [app add_segments_back]. unfold bind.
    destruct (add_segment_back this r q pool0); [apply IH | reflexivity]. }
  rewrite Happ.
  destruct (RingFacts.add_segments_back_ok this (p :: ps) r0 pool)
    as (r1 & Hrun & _).
  { by constructor. }
  { apply Hp. }
  rewrite Hrun. reflexivity.
Qed.

Lemma build_stops_at_null_segment_witness :
  build (order := lex_order) Sample.ring_addr 1%N
    ([2%N] ++ nullptr :: [3%N]) Sample.pool
  = Abort (assertion_failed assert_segment).
Proof.
  apply (build_stops_at_null_segment lex_order Sample.ring_addr Sample.pool
           1%N [2%N] [3%N]); solve_valid.
Defined.

(** X2: after [create] and a sequence of [add_segment_back] calls, every
    segment of the ring has its ring back-reference set to the address of
    the ring and is otherwise as it was, and the segments of the pool that
    are not in the ring are untouched. *)
Theorem build_takes_ownership (order : SegmentOrder) (this : ring_ptr)
  (pool : segment_pool) (p : seg_ptr) (ps : list N) r pool' :
  build this p ps pool = Ok r pool' ->
  (forall q, q ∈ m_segments r ->
     exists s, pool !! q = Some s
       /\ pool' !! q = Some (NodeRefSegment.set_ring this s)
       /\ NodeRefSegment.ring (NodeRefSegment.set_ring this s) = this)
  /\ (forall q, q ∉ m_segments r -> pool' !! q = pool !! q).
Proof.
  intros Hrun.
  pose proof (RunFacts.add_segments_back_inv this (p :: ps) _ _ _ _ Hrun)
    as Hvalid.
  destruct (RingFacts.add_segments_back_ok this (p :: ps)
              {| m_segments := []; m_inner := []; m_min_segment := p;
                 m_outer_ring := nullptr; m_sum := 0 |} pool Hvalid)
    as (r1 & Hrun1 & Hsegs & _).
  { inversion Hvalid as [|? ? Hp _]; subst. apply Hp. }
  change (build this p ps pool) with
    (add_segments_back this
       {| m_segments := []; m_inner := []; m_min_segment := p;
          m_outer_ring := nullptr; m_sum := 0 |} (p :: ps) pool) in Hrun.
  rewrite Hrun1 in Hrun.
  assert (Hr : r = r1) by congruence.
  assert (Hpool : pool'
                  = alter_all (NodeRefSegment.set_ring this) (p :: ps) pool)
    by congruence.
  rewrite Hr, Hpool, Hsegs. cbn [m_segments app]. clear Hrun Hrun1 Hpool.
  split.
  - intros q Hq. rewrite Forall_forall in Hvalid.
    destruct (Hvalid q Hq) as [_ [s Hs]]. exists s.
    split; [exact Hs |]. split; [|done].
    rewrite (RunFacts.lookup_alter_all_idem _ (p :: ps) pool q
               (RunFacts.iter_set_ring this)).
    by rewrite decide_True, Hs.
  - intros q Hq.
    rewrite (RunFacts.lookup_alter_all_idem _ (p :: ps) pool q
               (RunFacts.iter_set_ring this)).
    by rewrite decide_False.
Qed.

Lemma build_takes_ownership_witness :
  (forall q, q ∈ [1%N; 2%N; 3%N] ->
     exists s, Sample.pool !! q = Some s
       /\ alter_all (NodeRefSegment.set_ring Sample.ring_addr)
            [1%N; 2%N; 3%N] Sample.pool !! q
          = Some (NodeRefSegment.set_ring Sample.ring_addr s)
       /\ NodeRefSegment.ring (NodeRefSegment.set_ring Sample.ring_addr s)
          = Sample.ring_addr)
  /\ (forall q, q ∉ [1%N; 2%N; 3%N] ->
      alter_all (NodeRefSegment.set_ring Sample.ring_addr)
        [1%N; 2%N; 3%N] Sample.pool !! q = Sample.pool !! q).
Proof.
  apply (build_takes_ownership lex_order Sample.ring_addr Sample.pool
           1%N [2%N; 3%N]
           {| m_segments := [1%N; 2%N; 3%N]; m_inner := [];
              m_min_segment := 1%N; m_outer_ring := nullptr;
              m_sum := -5 |}).
  vm_compute. reflexivity.
Defined.

(** ** Joining two rings *)

Module JoinFacts.

Import PoolFacts.

Lemma alter_alter_same f g p (pool : segment_pool) :
  alter f p (alter g p pool) = alter (fun s => f (g s)) p pool.
Proof.
  apply map_eq. intros q. destruct (decide (p = q)) as [->|Hne].
  - rewrite !lookup_alter_eq. by destruct (pool !! q).
  - by rewrite !lookup_alter_ne.
Qed.

Lemma det_at_alter_ne f p (pool : segment_pool) q :
  p <> q -> det_at (alter f p pool) q = det_at pool q.
Proof. intros Hne. unfold det_at. by rewrite lookup_alter_ne. Qed.

Lemma sum_det_alter_notin f p (pool : segment_pool) v :
  p ∉ v -> sum_det (alter f p pool) v = sum_det pool v.
Proof.
  induction v as [|q v IH]; intros Hp; [reflexivity |].
  rewrite !sum_det_cons, IH by set_solver.
  rewrite det_at_alter_ne; [done | set_solver].
Qed.

Lemma sum_det_rev (pool : segment_pool) v :
  sum_det pool (rev v) = sum_det pool v.
Proof.
  induction v as [|q v IH]; [reflexivity |].
  simpl rev. rewrite sum_det_app, sum_det_cons, IH. simpl. lia.
Qed.

Lemma start_iter_set_ring this n s :
  NodeRefSegment.start (Nat.iter n (NodeRefSegment.set_ring this) s)
  = NodeRefSegment.start s.
Proof. induction n as [|n IH]; [reflexivity |]. simpl. exact IH. Qed.

Lemma stop_iter_set_ring this n s :
  NodeRefSegment.stop (Nat.iter n (NodeRefSegment.set_ring this) s)
  = NodeRefSegment.stop s.
Proof. induction n as [|n IH]; [reflexivity |]. simpl. exact IH. Qed.

(** What the two endpoint accessors read. *)
Lemma get_node_ref_start_inv r (pool : segment_pool) a pool' :
  get_node_ref_start r pool = Ok a pool' ->
  exists p s, head (m_segments r) = Some p /\ pool !! p = Some s
    /\ a = NodeRefSegment.start s /\ pool' = pool.
Proof.
  unfold get_node_ref_start, bind, front, deref.
  destruct (m_segments r) as [|p v]; [done |]. unfold ret at 1.
  destruct (pool !! p) as [s|] eqn:Hs; [|done].
  intros [= <- <-]. by exists p, s.
Qed.

Lemma get_node_ref_start_ok r (pool : segment_pool) p s :
  head (m_segments r) = Some p -> pool !! p = Some s ->
  get_node_ref_start r pool = Ok (NodeRefSegment.start s) pool.
Proof.
  unfold get_node_ref_start, bind, front, deref.
  destruct (m_segments r) as [|p' v]; [done |].
  intros [= ->] Hs. unfold ret at 1. by rewrite Hs.
Qed.

Lemma get_node_ref_stop_inv r (pool : segment_pool) b pool' :
  get_node_ref_stop r pool = Ok b pool' ->
  exists p s, last (m_segments r) = Some p /\ pool !! p = Some s
    /\ b = NodeRefSegment.stop s /\ pool' = pool.
Proof.
  unfold get_node_ref_stop, bind, back, deref.
  destruct (last (m_segments r)) as [p|]; [|done]. unfold ret at 1.
  destruct (pool !! p) as [s|] eqn:Hs; [|done].
  intros [= <- <-]. by exists p, s.
Qed.

Lemma get_node_ref_stop_ok r (pool : segment_pool) p s :
  last (m_segments r) = Some p -> pool !! p = Some s ->
  get_node_ref_stop r pool = Ok (NodeRefSegment.stop s) pool.
Proof.
  unfold get_node_ref_stop, bind, back, deref.
  intros -> Hs. unfold ret at 1. by rewrite Hs.
Qed.

Section WithOrder.

Context {order : SegmentOrder}.
Variable this : ring_ptr.

(** The loop of [join_backward] over pairwise distinct valid pointers. *)
Lemma reverse_and_add_ok v : forall r (pool : segment_pool),
  NoDup v ->
  Forall (valid pool) v ->
  live pool (m_min_segment r) ->
  exists r',
    reverse_and_add this r v pool
    = Ok r' (alter_all
               (fun s => NodeRefSegment.set_ring this
                           (NodeRefSegment.reverse s)) v pool)
    /\ m_segments r' = m_segments r ++ v
    /\ m_inner r' = m_inner r
    /\ m_outer_ring r' = m_outer_ring r
    /\ Int64.wrap (m_sum r') = Int64.wrap (m_sum r - sum_det pool v)
    /\ (v <> [] -> Int64.in_range (m_sum r')).
Proof.
  induction v as [|p v IH]; intros r pool Hdup Hv Hmin.
  - exists r. simpl. rewrite app_nil_r, Z.sub_0_r. by repeat split.
  - apply NoDup_cons in Hdup as [Hp Hdup].
    inversion Hv as [|? ? [Hnull [s Hs]] Hv']; subst.
    set (pool1 := alter NodeRefSegment.reverse p pool).
    assert (Hs1 : pool1 !! p = Some (NodeRefSegment.reverse s)).
    { subst pool1. by rewrite lookup_alter_eq, Hs. }
    assert (Hmin1 : live pool1 (m_min_segment r)) by (by apply live_alter).
    destruct Hmin1 as [m Hm].
    pose proof (RingFacts.add_segment_back_ok this r p pool1 _ m
                  Hnull Hs1 Hm) as Hstep.
    set (r1 := {| m_segments := m_segments r ++ [p];
                  m_inner := m_inner r;
                  m_min_segment :=
                    if seg_lt (NodeRefSegment.reverse s) m
                    then p else m_min_segment r;
                  m_outer_ring := m_outer_ring r;
                  m_sum := Int64.add (m_sum r)
                             (NodeRefSegment.det (NodeRefSegment.reverse s))
               |}) in Hstep.
    set (pool2 := alter (NodeRefSegment.set_ring this) p pool1) in Hstep.
    destruct (IH r1 pool2 Hdup)
      as (r' & Hrun & Hsegs & Hin & Hout & Hsum & Hrange).
    { subst pool2 pool1. by do 2 apply Forall_valid_alter. }
    { subst pool2. apply live_alter. subst r1. cbn [m_min_segment].
      destruct (seg_lt (NodeRefSegment.reverse s) m); unfold live; eauto. }
    exists r'. split.
    { cbn [reverse_and_add]. unfold bind. unfold update at 1. rewrite Hs.
      fold pool1. rewrite Hstep, Hrun. f_equal.
      rewrite alter_all_cons. subst pool2 pool1.
      by rewrite alter_alter_same. }
    split; [rewrite Hsegs; subst r1; simpl; by rewrite <- app_assoc |].
    split; [by rewrite Hin |]. split; [by rewrite Hout |].
    split.
    + rewrite Hsum. subst r1 pool2 pool1. cbn [m_sum].
      rewrite !sum_det_alter_notin by done.
      rewrite sum_det_cons, (det_at_Some pool p s Hs).
      rewrite SegmentFacts.det_reverse. unfold Int64.add, Int64.neg.
      rewrite Int64Facts.wrap_add_r.
      replace (Int64.wrap (m_sum r + - NodeRefSegment.det s)
               - sum_det pool v)
        with (Int64.wrap (m_sum r + - NodeRefSegment.det s)
              + - sum_det pool v) by lia.
      rewrite Int64Facts.wrap_add_l. f_equal. lia.
    + intros _. destruct v as [|p' v'].
      * simpl in Hrun. injection Hrun as <-. subst r1. simpl.
        apply Int64Facts.wrap_in_range.
      * by apply Hrange.
Qed.

End WithOrder.

End JoinFacts.

(** X3: [join_forward] keeps the cached minimum current: if [min_segment()]
    is a minimum of this ring before the join and the pointers of [other]
    are valid, then after the join it is a minimum of the segments of both
    rings. *)
Theorem join_forward_keeps_minimum (order : SegmentOrder)
  (laws : SegmentOrderLaws order) (this : ring_ptr)
  (r other : ProtoRing) (pool : segment_pool) :
  Forall (valid pool) (m_segments other) ->
  is_minimum pool (m_segments r) (min_segment r) ->
  exists r' pool',
    join_forward this r other pool = Ok r' pool'
    /\ m_segments r' = m_segments r ++ m_segments other
    /\ is_minimum pool' (m_segments r') (min_segment r').
Proof.
  intros Hvalid Hmin.
  assert (Hlive : live pool (m_min_segment r)).
  { destruct Hmin as (_ & m & Hm & _). by exists m. }
  destruct (RingFacts.add_segments_back_ok this (m_segments other) r pool
              Hvalid Hlive) as (r' & Hrun & Hsegs & _).
  eexists _, _. split; [exact Hrun |]. split; [exact Hsegs |].
  by apply (RingFacts.add_segments_back_min this laws (m_segments other)
              r pool r' _ Hvalid Hmin).
Qed.

Lemma join_forward_keeps_minimum_witness :
  exists r' pool',
    join_forward (order := lex_order) Sample.ring_addr
      Sample.chain1 Sample.chain23 Sample.pool = Ok r' pool'
    /\ m_segments r' = [1%N] ++ [2%N; 3%N]
    /\ is_minimum (order := lex_order) pool' (m_segments r') (min_segment r').
Proof.
  apply (join_forward_keeps_minimum lex_order LexOrder.lex_order_laws
           Sample.ring_addr Sample.chain1 Sample.chain23 Sample.pool).
  - solve_valid.
  - split; [set_solver |]. eexists. split; [reflexivity |].
    intros q s Hq Hs. apply list_elem_of_singleton in Hq as ->.
    injection Hs as <-. reflexivity.
Defined.

(** X4: [join_forward] extends the chain at its back only: the joined ring
    starts at the node this ring started at and stops at the node [other]
    stopped at. *)
Theorem join_forward_endpoints (order : SegmentOrder) (this : ring_ptr)
  (r other : ProtoRing) (pool : segment_pool) (a b : NodeRef.t) :
  Forall (valid pool) (m_segments other) ->
  live pool (m_min_segment r) ->
  get_node_ref_start r pool = Ok a pool ->
  get_node_ref_stop other pool = Ok b pool ->
  exists r' pool',
    join_forward this r other pool = Ok r' pool'
    /\ get_node_ref_start r' pool' = Ok a pool'
    /\ get_node_ref_stop r' pool' = Ok b pool'.
Proof.
  intros Hvalid Hlive Hstart Hstop.
  destruct (RingFacts.add_segments_back_ok this (m_segments other) r pool
              Hvalid Hlive) as (r' & Hrun & Hsegs & _).
  apply JoinFacts.get_node_ref_start_inv in Hstart
    as (pf & sf & Hhead & Hsf & -> & _).
  apply JoinFacts.get_node_ref_stop_inv in Hstop
    as (pl & sl & Hlast & Hsl & -> & _).
  eexists _, _. split; [exact Hrun |]. split.
  - rewrite <- (JoinFacts.start_iter_set_ring this
                  (count_occ N.eq_dec (m_segments other) pf) sf).
    apply JoinFacts.get_node_ref_start_ok with pf.
    + rewrite Hsegs. destruct (m_segments r); [done |]. exact Hhead.
    + by rewrite PoolFacts.lookup_alter_all, Hsf.
  - rewrite <- (JoinFacts.stop_iter_set_ring this
                  (count_occ N.eq_dec (m_segments other) pl) sl).
    apply JoinFacts.get_node_ref_stop_ok with pl.
    + rewrite Hsegs, last_app, Hlast. done.
    + by rewrite PoolFacts.lookup_alter_all, Hsl.
Qed.

Lemma join_forward_endpoints_witness :
  exists r' pool',
    join_forward (order := lex_order) Sample.ring_addr
      Sample.chain1 Sample.chain23 Sample.pool = Ok r' pool'
    /\ get_node_ref_start r' pool' = Ok Sample.p1 pool'
    /\ get_node_ref_stop r' pool' = Ok Sample.p1' pool'.
Proof.
  apply (join_forward_endpoints lex_order Sample.ring_addr
           Sample.chain1 Sample.chain23 Sample.pool).
  - solve_valid.
  - solve_valid.
  - reflexivity.
  - reflexivity.
Defined.

(** X5: let [other] be a ring with pairwise distinct valid segment pointers
    whose [m_sum] is the sum of its segments' [det()].  Then
    [join_backward] succeeds; the joined ring holds the segments of this
    ring followed by those of [other] in reverse order; its [m_sum] is this
    ring's sum minus the sum of [other], in [int64_t] arithmetic; every
    segment of [other] has been reversed and handed to this ring, and no
    other segment of the pool has changed. *)
Theorem join_backward_counts_and_sums (order : SegmentOrder)
  (this : ring_ptr) (r other : ProtoRing) (pool : segment_pool) :
  NoDup (m_segments other) ->
  Forall (valid pool) (m_segments other) ->
  live pool (m_min_segment r) ->
  Int64.in_range (m_sum r) ->
  sum_consistent pool other ->
  exists r' pool',
    join_backward this r other pool = Ok r' pool'
    /\ m_segments r' = m_segments r ++ rev (m_segments other)
    /\ length (m_segments r')
       = (length (m_segments r) + length (m_segments other))%nat
    /\ sum r' = Int64.add (sum r) (Int64.neg (sum other))
    /\ (forall q, q ∈ m_segments other ->
        exists s, pool !! q = Some s
          /\ pool' !! q
             = Some (NodeRefSegment.set_ring this (NodeRefSegment.reverse s)))
    /\ (forall q, q ∉ m_segments other -> pool' !! q = pool !! q).
Proof.
  intros Hdup Hvalid Hlive Hrange Hother.
  assert (Hdup' : NoDup (rev (m_segments other))).
  { apply NoDup_ListNoDup, List.NoDup_rev. by apply NoDup_ListNoDup. }
  assert (Hvalid' : Forall (valid pool) (rev (m_segments other))).
  { apply Forall_forall. intros q Hq. rewrite Forall_forall in Hvalid.
    apply Hvalid, list_elem_of_In, in_rev. by apply list_elem_of_In. }
  destruct (JoinFacts.reverse_and_add_ok this (rev (m_segments other))
              r pool Hdup' Hvalid' Hlive)
    as (r' & Hrun & Hsegs & _ & _ & Hsum & Hfits).
  eexists _, _. split; [exact Hrun |]. split; [exact Hsegs |].
  split; [by rewrite Hsegs, length_app, length_rev |].
  split.
  { unfold sum, Int64.add, Int64.neg. rewrite Hother.
    rewrite Int64Facts.wrap_opp, Int64Facts.wrap_add_r.
    rewrite JoinFacts.sum_det_rev in Hsum.
    replace (m_sum r + - sum_det pool (m_segments other))
      with (m_sum r - sum_det pool (m_segments other)) by lia.
    rewrite <- Hsum. symmetry. apply Int64Facts.wrap_id.
    destruct (rev (m_segments other)) as [|p v] eqn:Hv.
    - simpl in Hrun. injection Hrun as <-. exact Hrange.
    - by apply Hfits. }
  split.
  - intros q Hq. rewrite Forall_forall in Hvalid.
    destruct (Hvalid q Hq) as [_ [s Hs]]. exists s. split; [exact Hs |].
    rewrite PoolFacts.lookup_alter_all, Hs.
    assert (Hone : count_occ N.eq_dec (rev (m_segments other)) q = 1%nat).
    { rewrite count_occ_rev.
      apply (proj1 (NoDup_count_occ' N.eq_dec (m_segments other))).
      - by apply NoDup_ListNoDup.
      - by apply list_elem_of_In. }
    by rewrite Hone.
  - intros q Hq. rewrite PoolFacts.lookup_alter_all.
    assert (Hzero : count_occ N.eq_dec (rev (m_segments other)) q = 0%nat).
    { rewrite count_occ_rev. apply count_occ_not_In.
      by rewrite <- list_elem_of_In. }
    rewrite Hzero. by destruct (pool !! q).
Qed.

Lemma join_backward_counts_and_sums_witness :
  exists r' pool',
    join_backward (order := lex_order) Sample.ring_addr
      Sample.chain1 Sample.chain23 Sample.pool = Ok r' pool'
    /\ m_segments r' = [1%N] ++ rev [2%N; 3%N]
    /\ length (m_segments r') = (1 + 2)%nat
    /\ sum r' = Int64.add 0 (Int64.neg (-5))
    /\ (forall q, q ∈ [2%N; 3%N] ->
        exists s, Sample.pool !! q = Some s
          /\ pool' !! q
             = Some (NodeRefSegment.set_ring Sample.ring_addr
                       (NodeRefSegment.reverse s)))
    /\ (forall q, q ∉ [2%N; 3%N] -> pool' !! q = Sample.pool !! q).
Proof.
  apply (join_backward_counts_and_sums lex_order Sample.ring_addr
           Sample.chain1 Sample.chain23 Sample.pool).
  - apply NoDup_ListNoDup. repeat constructor; simpl; intuition discriminate.
  - solve_valid.
  - solve_valid.
  - unfold Int64.in_range, Int64.min_signed, Int64.max_signed. simpl. lia.
  - reflexivity.
Defined.

(** X6: [join_backward] extends the chain at its back with [other] turned
    around: for [other] with pairwise distinct valid segment pointers, the
    joined ring stops at the node [other] started at. *)
Theorem join_backward_stops_at_start_of_other (order : SegmentOrder)
  (this : ring_ptr) (r other : ProtoRing) (pool : segment_pool)
  (a : NodeRef.t) :
  NoDup (m_segments other) ->
  Forall (valid pool) (m_segments other) ->
  live pool (m_min_segment r) ->
  get_node_ref_start other pool = Ok a pool ->
  exists r' pool',
    join_backward this r other pool = Ok r' pool'
    /\ get_node_ref_stop r' pool' = Ok a pool'.
Proof.
  intros Hdup Hvalid Hlive Hstart.
  assert (Hdup' : NoDup (rev (m_segments other))).
  { apply NoDup_ListNoDup, List.NoDup_rev. by apply NoDup_ListNoDup. }
  assert (Hvalid' : Forall (valid pool) (rev (m_segments other))).
  { apply Forall_forall. intros q Hq. rewrite Forall_forall in Hvalid.
    apply Hvalid, list_elem_of_In, in_rev. by apply list_elem_of_In. }
  destruct (JoinFacts.reverse_and_add_ok this (rev (m_segments other))
              r pool Hdup' Hvalid' Hlive) as (r' & Hrun & Hsegs & _).
  apply JoinFacts.get_node_ref_start_inv in Hstart
    as (pf & sf & Hhead & Hsf & -> & _).
  eexists _, _. split; [exact Hrun |].
  change (NodeRefSegment.start sf)
    with (NodeRefSegment.stop
            (NodeRefSegment.set_ring this (NodeRefSegment.reverse sf))).
  apply JoinFacts.get_node_ref_stop_ok with pf.
  - rewrite Hsegs, last_app.
    destruct (m_segments other) as [|p v] eqn:Hv; [done |].
    injection Hhead as ->. simpl rev. by rewrite last_snoc.
  - rewrite PoolFacts.lookup_alter_all, Hsf.
    assert (Hone : count_occ N.eq_dec (rev (m_segments other)) pf = 1%nat).
    { rewrite count_occ_rev.
      apply (proj1 (NoDup_count_occ' N.eq_dec (m_segments other))).
      - by apply NoDup_ListNoDup.
      - apply list_elem_of_In. destruct (m_segments other); [done |].
        injection Hhead as ->. set_solver. }
    by rewrite Hone.
Qed.

Lemma join_backward_stops_at_start_of_other_witness :
  exists r' pool',
    join_backward (order := lex_order) Sample.ring_addr
      Sample.chain1 Sample.chain23 Sample.pool = Ok r' pool'
    /\ get_node_ref_stop r' pool' = Ok Sample.p2 pool'.
Proof.
  apply (join_backward_stops_at_start_of_other lex_order Sample.ring_addr
           Sample.chain1 Sample.chain23 Sample.pool).
  - apply NoDup_ListNoDup. repeat constructor; simpl; intuition discriminate.
  - solve_valid.
  - solve_valid.
  - reflexivity.
Defined.

(** ** Reversal of a ring with pairwise distinct segments *)

Module ReverseFacts.

Import PoolFacts.

Lemma location_eqb_sym a b : Location.eqb a b = Location.eqb b a.
Proof. unfold Location.eqb. by rewrite (Z.eqb_sym (Location.x a)),
  (Z.eqb_sym (Location.y a)). Qed.

Lemma head_rev {A} (v : list A) : head (rev v) = last v.
Proof. rewrite rev_alt. apply head_reverse. Qed.

Lemma last_rev {A} (v : list A) : last (rev v) = head v.
Proof. rewrite rev_alt. apply last_reverse. Qed.

(** Every segment of the ring is reversed once. *)
Lemma lookup_reversed v (pool : segment_pool) q s :
  NoDup v -> q ∈ v -> pool !! q = Some s ->
  alter_all NodeRefSegment.reverse v pool !! q
  = Some (NodeRefSegment.reverse s).
Proof.
  intros Hdup Hq Hs. rewrite lookup_alter_all, Hs.
  assert (Hone : count_occ N.eq_dec v q = 1%nat).
  { apply (proj1 (NoDup_count_occ' N.eq_dec v)).
    - by apply NoDup_ListNoDup.
    - by apply list_elem_of_In. }
  by rewrite Hone.
Qed.

Lemma wrap_sum_det_negated (pool pool' : segment_pool) w :
  (forall q, q ∈ w -> det_at pool' q = Int64.neg (det_at pool q)) ->
  Int64.wrap (sum_det pool' w) = Int64.wrap (- sum_det pool w).
Proof.
  induction w as [|q w IH]; intros Hneg; [reflexivity |].
  rewrite !sum_det_cons, Hneg by set_solver. unfold Int64.neg.
  rewrite Int64Facts.wrap_add_l, <- Int64Facts.wrap_add_r, IH by set_solver.
  rewrite Int64Facts.wrap_add_r. f_equal. lia.
Qed.

Lemma reverse_sum_consistent r (pool : segment_pool) :
  NoDup (m_segments r) ->
  Forall (live pool) (m_segments r) ->
  sum_consistent pool r ->
  sum_consistent
    (alter_all NodeRefSegment.reverse (m_segments r) pool)
    {| m_segments := rev (m_segments r); m_inner := m_inner r;
       m_min_segment := m_min_segment r;
       m_outer_ring := m_outer_ring r;
       m_sum := Int64.neg (m_sum r) |}.
Proof.
  intros Hdup Hlive Hsum. unfold sum_consistent in *.
  cbn [m_sum m_segments]. rewrite Hsum. unfold Int64.neg.
  rewrite Int64Facts.wrap_opp, JoinFacts.sum_det_rev. symmetry.
  apply wrap_sum_det_negated. intros q Hq.
  rewrite Forall_forall in Hlive. destruct (Hlive q Hq) as [s Hs].
  unfold det_at. rewrite (lookup_reversed _ _ _ _ Hdup Hq Hs), Hs. simpl.
  apply SegmentFacts.det_reverse.
Qed.

Lemma reverse_endpoints r (pool : segment_pool) a b :
  NoDup (m_segments r) ->
  get_node_ref_start r pool = Ok a pool ->
  get_node_ref_stop r pool = Ok b pool ->
  let r' := {| m_segments := rev (m_segments r); m_inner := m_inner r;
               m_min_segment := m_min_segment r;
               m_outer_ring := m_outer_ring r;
               m_sum := Int64.neg (m_sum r) |} in
  let pool' := alter_all NodeRefSegment.reverse (m_segments r) pool in
  get_node_ref_start r' pool' = Ok b pool'
  /\ get_node_ref_stop r' pool' = Ok a pool'.
Proof.
  intros Hdup Hstart Hstop r' pool'.
  apply JoinFacts.get_node_ref_start_inv in Hstart
    as (pf & sf & Hhead & Hsf & -> & _).
  apply JoinFacts.get_node_ref_stop_inv in Hstop
    as (pl & sl & Hlast & Hsl & -> & _).
  split.
  - change (NodeRefSegment.stop sl)
      with (NodeRefSegment.start (NodeRefSegment.reverse sl)).
    apply JoinFacts.get_node_ref_start_ok with pl.
    + subst r'. cbn [m_segments]. by rewrite head_rev.
    + apply lookup_reversed; [done | | done].
      by apply last_Some_elem_of.
  - change (NodeRefSegment.start sf)
      with (NodeRefSegment.stop (NodeRefSegment.reverse sf)).
    apply JoinFacts.get_node_ref_stop_ok with pf.
    + subst r'. cbn [m_segments]. by rewrite last_rev.
    + apply lookup_reversed; [done | | done].
      by apply head_Some_elem_of.
Qed.

Lemma closed_inv r (pool : segment_pool) c pool' :
  closed r pool = Ok c pool' ->
  exists a b,
    get_node_ref_start r pool = Ok a pool
    /\ get_node_ref_stop r pool = Ok b pool
    /\ c = Location.eqb (NodeRef.location a) (NodeRef.location b)
    /\ pool' = pool.
Proof.
  unfold closed, bind.
  destruct (get_node_ref_start r pool) as [a pool1|] eqn:Hstart; [|done].
  pose proof (JoinFacts.get_node_ref_start_inv _ _ _ _ Hstart)
    as (_ & _ & _ & _ & _ & ->).
  destruct (get_node_ref_stop r pool) as [b pool2|] eqn:Hstop; [|done].
  pose proof (JoinFacts.get_node_ref_stop_inv _ _ _ _ Hstop)
    as (_ & _ & _ & _ & _ & ->).
  intros [= <- <-]. by exists a, b.
Qed.

Lemma closed_ok r (pool : segment_pool) a b :
  get_node_ref_start r pool = Ok a pool ->
  get_node_ref_stop r pool = Ok b pool ->
  closed r pool
  = Ok (Location.eqb (NodeRef.location a) (NodeRef.location b)) pool.
Proof. intros Hstart Hstop. unfold closed, bind. by rewrite Hstart, Hstop. Qed.

Lemma reverse_closed r (pool : segment_pool) c :
  NoDup (m_segments r) ->
  Forall (live pool) (m_segments r) ->
  closed r pool = Ok c pool ->
  exists r' pool',
    reverse r pool = Ok r' pool' /\ closed r' pool' = Ok c pool'.
Proof.
  intros Hdup Hlive Hclosed.
  apply closed_inv in Hclosed as (a & b & Hstart & Hstop & -> & _).
  destruct (reverse_endpoints r pool a b Hdup Hstart Hstop) as [Hs Ht].
  eexists _, _. split; [by apply RingFacts.reverse_ok |].
  rewrite location_eqb_sym. by apply closed_ok.
Qed.

End ReverseFacts.

(** X7: on a ring with pairwise distinct live segment pointers,
    [reverse()] keeps [m_sum] equal to the sum of [det()] over the segments
    of the ring: negating the sum agrees with reversing every segment. *)
Theorem reverse_keeps_sum_consistent (r : ProtoRing) (pool : segment_pool) :
  NoDup (m_segments r) ->
  Forall (live pool) (m_segments r) ->
  sum_consistent pool r ->
  exists r' pool',
    reverse r pool = Ok r' pool' /\ sum_consistent pool' r'.
Proof.
  intros Hdup Hlive Hsum. eexists _, _.
  split; [by apply RingFacts.reverse_ok |].
  by apply ReverseFacts.reverse_sum_consistent.
Qed.

Lemma reverse_keeps_sum_consistent_witness :
  exists r' pool',
    reverse Sample.triangle Sample.pool = Ok r' pool'
    /\ sum_consistent pool' r'.
Proof.
  apply (reverse_keeps_sum_consistent Sample.triangle Sample.pool).
  - apply NoDup_ListNoDup. repeat constructor; simpl; intuition discriminate.
  - solve_valid.
  - reflexivity.
Defined.

(** X8: on a ring with pairwise distinct segment pointers, [reverse()]
    exchanges the two ends of the chain: the reversed ring starts at the
    node the ring stopped at and stops at the node it started at. *)
Theorem reverse_swaps_endpoints (r : ProtoRing) (pool : segment_pool)
  (a b : NodeRef.t) :
  NoDup (m_segments r) ->
  Forall (live pool) (m_segments r) ->
  get_node_ref_start r pool = Ok a pool ->
  get_node_ref_stop r pool = Ok b pool ->
  exists r' pool',
    reverse r pool = Ok r' pool'
    /\ get_node_ref_start r' pool' = Ok b pool'
    /\ get_node_ref_stop r' pool' = Ok a pool'.
Proof.
  intros Hdup Hlive Hstart Hstop. eexists _, _.
  split; [by apply RingFacts.reverse_ok |].
  by apply ReverseFacts.reverse_endpoints.
Qed.

Lemma reverse_swaps_endpoints_witness :
  exists r' pool',
    reverse Sample.chain23 Sample.pool = Ok r' pool'
    /\ get_node_ref_start r' pool' = Ok Sample.p1' pool'
    /\ get_node_ref_stop r' pool' = Ok Sample.p2 pool'.
Proof.
  apply (reverse_swaps_endpoints Sample.chain23 Sample.pool).
  - apply NoDup_ListNoDup. repeat constructor; simpl; intuition discriminate.
  - solve_valid.
  - reflexivity.
  - reflexivity.
Defined.

(** X9: on a ring with pairwise distinct live segment pointers,
    [fix_direction()] does not open or close the ring: [closed()] gives
    after it what it gave before, whether the ring was reversed or not, and
    the nesting links are untouched. *)
Theorem fix_direction_keeps_closed (r : ProtoRing) (pool : segment_pool)
  (c : bool) :
  NoDup (m_segments r) ->
  Forall (live pool) (m_segments r) ->
  closed r pool = Ok c pool ->
  exists r' pool',
    fix_direction r pool = Ok r' pool'
    /\ closed r' pool' = Ok c pool'
    /\ inner_rings r' = inner_rings r
    /\ outer_ring r' = outer_ring r.
Proof.
  intros Hdup Hlive Hclosed. unfold fix_direction.
  destruct (Bool.eqb (is_cw r) (is_outer r)).
  - destruct (ReverseFacts.reverse_closed r pool c Hdup Hlive Hclosed)
      as (r' & pool' & Hrun & Hc).
    exists r', pool'. split; [exact Hrun |]. split; [exact Hc |].
    rewrite (RingFacts.reverse_ok r pool Hlive) in Hrun.
    injection Hrun as <- _. by split.
  - by exists r, pool.
Qed.

Lemma fix_direction_keeps_closed_witness :
  exists r' pool',
    fix_direction Sample.triangle Sample.pool = Ok r' pool'
    /\ closed r' pool' = Ok true pool'
    /\ inner_rings r' = inner_rings Sample.triangle
    /\ outer_ring r' = outer_ring Sample.triangle.
Proof.
  apply (fix_direction_keeps_closed Sample.triangle Sample.pool true).
  - apply NoDup_ListNoDup. repeat constructor; simpl; intuition discriminate.
  - solve_valid.
  - reflexivity.
Defined.

(** ** Direction flags and contributing ways *)

(** X10: on a ring with live segment pointers, [mark_direction_done()]
    sets the direction flag of every segment of the ring and changes
    nothing else: the ring itself, the other fields of those segments and
    the other segments of the pool stay as they were.  A [reset()] right
    after it leaves the ring and the pool as a [reset()] alone does. *)
Theorem mark_direction_done_effect (r : ProtoRing) (pool : segment_pool) :
  Forall (live pool) (m_segments r) ->
  (exists pool',
     mark_direction_done r pool = Ok r pool'
     /\ (forall q, q ∈ m_segments r ->
         exists s, pool !! q = Some s
           /\ pool' !! q = Some (NodeRefSegment.mark_direction_done s)
           /\ NodeRefSegment.direction_done
                (NodeRefSegment.mark_direction_done s) = true)
     /\ (forall q, q ∉ m_segments r -> pool' !! q = pool !! q))
  /\ (r1 <- mark_direction_done r ;; reset r1) pool = reset r pool.
Proof.
  intros Hlive.
  assert (Hrun : mark_direction_done r pool
                 = Ok r (alter_all NodeRefSegment.mark_direction_done
                           (m_segments r) pool)).
  { unfold mark_direction_done, bind.
    by rewrite PoolFacts.for_each_update. }
  split.
  - eexists. split; [exact Hrun |]. split.
    + intros q Hq. rewrite Forall_forall in Hlive.
      destruct (Hlive q Hq) as [s Hs]. exists s.
      split; [exact Hs |]. split; [|done].
      rewrite (RunFacts.lookup_alter_all_idem _ (m_segments r) pool q
                 RunFacts.iter_mark_direction_done).
      by rewrite decide_True, Hs.
    + intros q Hq.
      rewrite (RunFacts.lookup_alter_all_idem _ (m_segments r) pool q
                 RunFacts.iter_mark_direction_done).
      by rewrite decide_False.
  - unfold bind at 1. rewrite Hrun.
    rewrite !RingFacts.reset_ok; [|done |].
    2:{ eapply Forall_impl; [exact Hlive |]. intros q.
        by rewrite PoolFacts.live_alter_all. }
    f_equal. apply map_eq. intros q.
    rewrite !(RunFacts.lookup_alter_all_idem
                NodeRefSegment.mark_direction_not_done (m_segments r) _ q
                SegmentFacts.iter_mark_direction_not_done).
    rewrite (RunFacts.lookup_alter_all_idem _ (m_segments r) pool q
               RunFacts.iter_mark_direction_done).
    destruct (decide (q ∈ m_segments r)); [|done].
    by destruct (pool !! q).
Qed.

Lemma mark_direction_done_effect_witness :
  (exists pool',
     mark_direction_done Sample.triangle Sample.pool
     = Ok Sample.triangle pool'
     /\ (forall q, q ∈ m_segments Sample.triangle ->
         exists s, Sample.pool !! q = Some s
           /\ pool' !! q = Some (NodeRefSegment.mark_direction_done s)
           /\ NodeRefSegment.direction_done
                (NodeRefSegment.mark_direction_done s) = true)
     /\ (forall q, q ∉ m_segments Sample.triangle ->
         pool' !! q = Sample.pool !! q))
  /\ (r1 <- mark_direction_done Sample.triangle ;; reset r1) Sample.pool
     = reset Sample.triangle Sample.pool.
Proof.
  apply (mark_direction_done_effect Sample.triangle Sample.pool).
  solve_valid.
Defined.

Module WaysFacts.

Lemma get_ways_loop_spec v : forall (ways : gset N) (pool : segment_pool),
  Forall (live pool) v ->
  exists ways',
    get_ways_loop v ways pool = Ok ways' pool
    /\ forall w, w ∈ ways' <->
         w ∈ ways
         \/ exists q s, q ∈ v /\ pool !! q = Some s
              /\ NodeRefSegment.way s = w.
Proof.
  induction v as [|p v IH]; intros ways pool Hlive.
  - exists ways. split; [reflexivity |]. intros w. split; [by left |].
    intros [Hw | (q & s & Hq & _)]; [done |]. by apply elem_of_nil in Hq.
  - inversion Hlive as [|? ? [s Hs] Hlive']; subst.
    destruct (IH ({[NodeRefSegment.way s]} ∪ ways) pool Hlive')
      as (ways' & Hrun & Hspec).
    exists ways'. split.
    { cbn [get_ways_loop]. unfold bind, deref. by rewrite Hs. }
    intros w. rewrite Hspec. split.
    + intros [Hw | (q & sq & Hq & Hsq & Hway)].
      * apply elem_of_union in Hw as [Hw | Hw]; [|by left].
        apply elem_of_singleton in Hw. right. exists p, s.
        split; [by apply list_elem_of_here |]. by split.
      * right. exists q, sq.
        split; [by apply list_elem_of_further |]. by split.
    + intros [Hw | (q & sq & Hq & Hsq & Hway)].
      * left. apply elem_of_union. by right.
      * apply elem_of_cons in Hq as [-> | Hq].
        -- left. rewrite Hs in Hsq. injection Hsq as <-.
           apply elem_of_union. left. by apply elem_of_singleton.
        -- right. by exists q, sq.
Qed.

End WaysFacts.

(** X11: on a ring with live segment pointers, [get_ways] returns the
    caller's set enlarged by the ways of the segments of the ring, and by
    nothing else; it removes nothing from the set and leaves the pool as
    it was. *)
Theorem get_ways_adds_the_ways_of_the_ring (r : ProtoRing)
  (ways : gset N) (pool : segment_pool) :
  Forall (live pool) (m_segments r) ->
  exists ways',
    get_ways r ways pool = Ok ways' pool
    /\ ways ⊆ ways'
    /\ forall w, w ∈ ways' <->
         w ∈ ways
         \/ exists q s, q ∈ m_segments r /\ pool !! q = Some s
              /\ NodeRefSegment.way s = w.
Proof.
  intros Hlive.
  destruct (WaysFacts.get_ways_loop_spec (m_segments r) ways pool Hlive)
    as (ways' & Hrun & Hspec).
  exists ways'. split; [exact Hrun |]. split; [|exact Hspec].
  intros w Hw. apply Hspec. by left.
Qed.

Lemma get_ways_adds_the_ways_of_the_ring_witness :
  exists ways',
    get_ways Sample.triangle {[ 9%N ]} Sample.pool = Ok ways' Sample.pool
    /\ {[ 9%N ]} ⊆ ways'
    /\ forall w, w ∈ ways' <->
         w ∈ ({[ 9%N ]} : gset N)
         \/ exists q s, q ∈ m_segments Sample.triangle
              /\ Sample.pool !! q = Some s
              /\ NodeRefSegment.way s = w.
Proof.
  apply (get_ways_adds_the_ways_of_the_ring Sample.triangle {[ 9%N ]}
           Sample.pool).
  solve_valid.
Defined.

(** ** Rings made through the public interface *)

Module WellFormedFacts.

Import PoolFacts.

Lemma wf_same_domain (pool pool' : segment_pool) r :
  (forall q, live pool' q <-> live pool q) ->
  well_formed pool r -> well_formed pool' r.
Proof.
  intros Hdom (Hne & Hvalid & Hmin & Hrange & Hnest).
  split; [exact Hne |]. split; [|split; [exact Hmin |]; by split].
  eapply Forall_impl; [exact Hvalid |].
  intros q [Hnull Hlive]. split; [done |]. by apply Hdom.
Qed.

Lemma wf_relink (pool : segment_pool) r r' :
  well_formed pool r ->
  m_segments r' = m_segments r ->
  m_min_segment r' = m_min_segment r ->
  m_sum r' = m_sum r ->
  m_outer_ring r' = nullptr \/ m_inner r' = [] ->
  well_formed pool r'.
Proof.
  intros (Hne & Hvalid & Hmin & Hrange & _) Hsegs Hm Hsum Hnest.
  unfold well_formed. rewrite Hsegs, Hm, Hsum.
  split; [exact Hne |]. split; [exact Hvalid |]. split; [exact Hmin |].
  by split.
Qed.

Lemma wf_alter f p (pool : segment_pool) r :
  well_formed pool r -> well_formed (alter f p pool) r.
Proof. apply wf_same_domain. intros q. apply live_alter. Qed.

Lemma wf_alter_all f v (pool : segment_pool) r :
  well_formed pool r -> well_formed (alter_all f v pool) r.
Proof. apply wf_same_domain. intros q. apply live_alter_all. Qed.

Lemma wf_live (pool : segment_pool) r :
  well_formed pool r -> Forall (live pool) (m_segments r).
Proof.
  intros (_ & Hvalid & _). eapply Forall_impl; [exact Hvalid |].
  by intros q [_ Hlive].
Qed.

Lemma wf_min_live (pool : segment_pool) r :
  well_formed pool r -> live pool (m_min_segment r).
Proof.
  intros (_ & Hvalid & Hmin & _). rewrite Forall_forall in Hvalid.
  by apply Hvalid.
Qed.

Lemma update_inv f p (pool : segment_pool) u pool' :
  update f p pool = Ok u pool' -> live pool p /\ pool' = alter f p pool.
Proof.
  unfold update. destruct (pool !! p) as [s|] eqn:Hs; [|done].
  intros [= _ <-]. split; [by exists s | done].
Qed.

Section WithOrder.

Context {order : SegmentOrder}.
Variable this : ring_ptr.

Lemma wf_create p (pool : segment_pool) r pool' :
  create this p pool = Ok r pool' -> well_formed pool' r.
Proof.
  intros Hrun. pose proof (RunFacts.add_segment_back_valid _ _ _ _ _ _ Hrun)
    as Hp.
  apply RunFacts.add_segment_back_inv in Hrun
    as (Hnull & s & m & Hs & Hm & -> & ->).
  cbn [m_segments m_min_segment app].
  split; [done |]. split.
  { constructor; [by apply valid_alter | constructor]. }
  split; [destruct (seg_lt s m); by apply list_elem_of_here |].
  split; [apply Int64Facts.wrap_in_range | by left].
Qed.

Lemma wf_add_segment_back r p (pool : segment_pool) r' pool' :
  well_formed pool r ->
  add_segment_back this r p pool = Ok r' pool' ->
  well_formed pool' r'.
Proof.
  intros (Hne & Hvalid & Hmin & Hrange & Hnest) Hrun.
  pose proof (RunFacts.add_segment_back_valid _ _ _ _ _ _ Hrun) as Hp.
  apply RunFacts.add_segment_back_inv in Hrun
    as (Hnull & s & m & Hs & Hm & -> & ->).
  split; [cbn [m_segments]; by destruct (m_segments r) |].
  split.
  { cbn [m_segments]. apply Forall_app. split.
    - by apply Forall_valid_alter.
    - constructor; [by apply valid_alter | constructor]. }
  split.
  { cbn [m_segments m_min_segment]. apply elem_of_app.
    destruct (seg_lt s m); [right; by apply list_elem_of_here | by left]. }
  split; [apply Int64Facts.wrap_in_range | exact Hnest].
Qed.

Lemma wf_add_segments_back v : forall r (pool : segment_pool) r' pool',
  well_formed pool r ->
  add_segments_back this r v pool = Ok r' pool' ->
  well_formed pool' r'.
Proof.
  induction v as [|p v IH]; intros r pool r' pool' Hwf Hrun.
  - simpl in Hrun. by injection Hrun as <- <-.
  - cbn [add_segments_back] in Hrun. unfold bind in Hrun.
    destruct (add_segment_back this r p pool) as [r1 pool1|] eqn:Hstep;
      [|done].
    eapply IH; [|exact Hrun]. by eapply wf_add_segment_back.
Qed.

Lemma wf_reverse_and_add v : forall r (pool : segment_pool) r' pool',
  well_formed pool r ->
  reverse_and_add this r v pool = Ok r' pool' ->
  well_formed pool' r'.
Proof.
  induction v as [|p v IH]; intros r pool r' pool' Hwf Hrun.
  - simpl in Hrun. by injection Hrun as <- <-.
  - cbn [reverse_and_add] in Hrun. unfold bind in Hrun.
    destruct (update NodeRefSegment.reverse p pool) as [u pool1|] eqn:Hup;
      [|done].
    apply update_inv in Hup as [_ ->].
    destruct (add_segment_back this r p
                (alter NodeRefSegment.reverse p pool))
      as [r1 pool2|] eqn:Hstep; [|done].
    eapply IH; [|exact Hrun].
    eapply wf_add_segment_back; [|exact Hstep]. by apply wf_alter.
Qed.

Lemma wf_reverse r (pool : segment_pool) r' pool' :
  well_formed pool r -> reverse r pool = Ok r' pool' ->
  well_formed pool' r'.
Proof.
  intros Hwf Hrun.
  rewrite (RingFacts.reverse_ok r pool (wf_live _ _ Hwf)) in Hrun.
  injection Hrun as <- <-. apply wf_alter_all.
  destruct Hwf as (Hne & Hvalid & Hmin & Hrange & Hnest).
  split.
  { cbn [m_segments]. intros Hnil. apply Hne.
    by rewrite <- (rev_involutive (m_segments r)), Hnil. }
  split.
  { cbn [m_segments]. apply Forall_forall. intros q Hq.
    rewrite Forall_forall in Hvalid. apply Hvalid.
    apply list_elem_of_In, in_rev. by apply list_elem_of_In. }
  split.
  { cbn [m_segments m_min_segment].
    apply list_elem_of_In. rewrite <- in_rev. by apply list_elem_of_In. }
  split; [apply Int64Facts.wrap_in_range | exact Hnest].
Qed.

Lemma wf_exec c r (pool : segment_pool) r' pool' :
  well_formed pool r -> exec this c r pool = Ok r' pool' ->
  well_formed pool' r'.
Proof.
  intros Hwf Hrun. destruct c; cbn [exec] in Hrun.
  - by eapply wf_add_segment_back.
  - unfold set_outer_ring, bind, c_assert in Hrun.
    destruct (negb (outer =? nullptr)%N); [|done]. simpl in Hrun.
    destruct (m_inner r) eqn:Hinner; [|done].
    injection Hrun as <- <-.
    apply (wf_relink pool r); try done. by right.
  - unfold add_inner_ring, bind, c_assert in Hrun.
    destruct (negb (ring =? nullptr)%N); [|done]. simpl in Hrun.
    destruct (m_outer_ring r =? nullptr)%N eqn:Houter; [|done].
    injection Hrun as <- <-.
    apply (wf_relink pool r); try done. left. by apply N.eqb_eq.
  - by eapply wf_reverse.
  - unfold mark_direction_done, bind in Hrun.
    rewrite (for_each_update _ _ _ (wf_live _ _ Hwf)) in Hrun.
    injection Hrun as <- <-. by apply wf_alter_all.
  - unfold fix_direction in Hrun.
    destruct (Bool.eqb (is_cw r) (is_outer r)).
    + by eapply wf_reverse.
    + by injection Hrun as <- <-.
  - rewrite (RingFacts.reset_ok r pool (wf_live _ _ Hwf)) in Hrun.
    injection Hrun as <- <-. apply wf_alter_all.
    apply (wf_relink pool r); try done. by left.
  - by eapply wf_add_segments_back.
  - by eapply wf_reverse_and_add.
Qed.

Lemma wf_exec_all cs : forall r (pool : segment_pool) r' pool',
  well_formed pool r -> exec_all this cs r pool = Ok r' pool' ->
  well_formed pool' r'.
Proof.
  induction cs as [|c cs IH]; intros r pool r' pool' Hwf Hrun.
  - simpl in Hrun. by injection Hrun as <- <-.
  - cbn [exec_all] in Hrun. unfold bind in Hrun.
    destruct (exec this c r pool) as [r1 pool1|] eqn:Hstep; [|done].
    eapply IH; [|exact Hrun]. by eapply wf_exec.
Qed.

Lemma reverse_and_add_total v : forall r (pool : segment_pool),
  Forall (valid pool) v -> live pool (m_min_segment r) ->
  exists r' pool', reverse_and_add this r v pool = Ok r' pool'.
Proof.
  induction v as [|p v IH]; intros r pool Hv Hmin; [by eexists _, _ |].
  inversion Hv as [|? ? [Hnull [s Hs]] Hv']; subst.
  assert (Hs1 : alter NodeRefSegment.reverse p pool !! p
                = Some (NodeRefSegment.reverse s)).
  { by rewrite lookup_alter_eq, Hs. }
  assert (Hmin1 : live (alter NodeRefSegment.reverse p pool)
                    (m_min_segment r)) by (by apply live_alter).
  destruct Hmin1 as [m Hm].
  pose proof (RingFacts.add_segment_back_ok this r p _ _ m Hnull Hs1 Hm)
    as Hstep.
  set (r1 := {| m_segments := m_segments r ++ [p];
                m_inner := m_inner r;
                m_min_segment :=
                  if seg_lt (NodeRefSegment.reverse s) m
                  then p else m_min_segment r;
                m_outer_ring := m_outer_ring r;
                m_sum := Int64.add (m_sum r)
                           (NodeRefSegment.det (NodeRefSegment.reverse s))
             |}) in Hstep.
  set (pool2 := alter (NodeRefSegment.set_ring this) p
                  (alter NodeRefSegment.reverse p pool)) in Hstep.
  destruct (IH r1 pool2) as (r' & pool' & Hrun).
  { subst pool2. by do 2 apply Forall_valid_alter. }
  { subst pool2. apply live_alter. subst r1. cbn [m_min_segment].
    destruct (seg_lt (NodeRefSegment.reverse s) m); unfold live; eauto. }
  exists r', pool'. cbn [reverse_and_add]. unfold bind.
  unfold update at 1. rewrite Hs, Hstep. exact Hrun.
Qed.

End WithOrder.

End WellFormedFacts.

(** X12: every ring made by the constructor and any sequence of calls of
    the member functions that all return is well formed: it has at least
    one segment, its segment pointers are non-null and point into the
    pool, [m_min_segment] is one of its segments, and it is never at once
    a hole ([m_outer_ring] set) and a ring with holes ([m_inner]
    non-empty). *)
Theorem reachable_rings_are_well_formed (order : SegmentOrder)
  (this : ring_ptr) (p : seg_ptr) (cs : list call)
  (pool : segment_pool) (r : ProtoRing) (pool' : segment_pool) :
  (r0 <- create this p ;; exec_all this cs r0) pool = Ok r pool' ->
  well_formed pool' r.
Proof.
  unfold bind. intros Hrun.
  destruct (create this p pool) as [r0 pool0|] eqn:Hcreate; [|done].
  eapply WellFormedFacts.wf_exec_all; [|exact Hrun].
  by eapply WellFormedFacts.wf_create.
Qed.

Lemma reachable_rings_are_well_formed_witness :
  exists r pool',
    (r0 <- create (order := lex_order) Sample.ring_addr 1%N ;;
     exec_all (order := lex_order) Sample.ring_addr
       [call_add_segment_back 2%N; call_add_segment_back 3%N;
        call_fix_direction; call_set_outer_ring 60%N;
        call_mark_direction_done; call_reset; call_add_inner_ring 61%N]
       r0) Sample.pool = Ok r pool'
    /\ well_formed pool' r.
Proof.
  eexists _, _. split; [vm_compute; reflexivity |].
  apply (reachable_rings_are_well_formed lex_order Sample.ring_addr 1%N
           [call_add_segment_back 2%N; call_add_segment_back 3%N;
            call_fix_direction; call_set_outer_ring 60%N;
            call_mark_direction_done; call_reset; call_add_inner_ring 61%N]
           Sample.pool).
  vm_compute. reflexivity.
Defined.

(** ** Printing a ring *)

Module PrintFacts.

Lemma node_ids_app out out' :
  node_ids (out ++ out') = node_ids out ++ node_ids out'.
Proof. apply omap_app. Qed.

Lemma print_stops_ok v : forall out (pool : segment_pool),
  Forall (live pool) v ->
  exists body,
    print_stops v out pool = Ok (out ++ body) pool
    /\ node_ids body = omap (stop_ref_at pool) v
    /\ length (node_ids body) = length v.
Proof.
  induction v as [|p v IH]; intros out pool Hlive.
  - exists []. by rewrite app_nil_r.
  - inversion Hlive as [|? ? [s Hs] Hlive']; subst.
    destruct (IH (out ++ [comma;
                          node_id (NodeRef.ref (NodeRefSegment.stop s))])
                pool Hlive') as (body & Hrun & Hids & Hlen).
    exists ([comma; node_id (NodeRef.ref (NodeRefSegment.stop s))] ++ body).
    split; [|split].
    + cbn [print_stops]. unfold bind, deref. rewrite Hs, Hrun.
      by rewrite <- app_assoc.
    + cbn [omap list_omap]. unfold stop_ref_at at 1. rewrite Hs. simpl.
      f_equal. exact Hids.
    + simpl. f_equal. exact Hlen.
Qed.

Lemma print_returns r out (pool : segment_pool) :
  Forall (live pool) (m_segments r) ->
  exists out', print r out pool = Ok out' pool.
Proof.
  intros Hlive. unfold print, bind.
  destruct (m_segments r) as [|p v] eqn:Hsegs; [by eexists |].
  inversion Hlive as [|? ? [s Hs] Hlive']; subst.
  unfold deref at 1. rewrite Hs. unfold ret at 1.
  destruct (print_stops_ok (p :: v)
              ((out ++ [ring_open])
               ++ [node_id (NodeRef.ref (NodeRefSegment.start s))])
              pool Hlive) as (body & Hrun & _).
  rewrite Hrun. by eexists.
Qed.

End PrintFacts.

(** X13: [print] writes "Ring [", the node ids along the chain, "]-" and
    "OUTER" or "INNER" behind what the stream holds, and leaves the pool as
    it was.  On a ring without segments it writes no node id and does not
    touch [front()]; on a ring of [n >= 1] live segments it writes [n + 1]
    node ids: the start of the first segment, then the stop of every
    segment in order. *)
Theorem print_writes_the_chain (r : ProtoRing) (out : list piece)
  (pool : segment_pool) :
  Forall (live pool) (m_segments r) ->
  exists body,
    print r out pool
    = Ok (out ++ [ring_open] ++ body
          ++ [ring_close; if is_outer r then OUTER else INNER]) pool
    /\ node_ids body = chain_ids pool (m_segments r)
    /\ length (node_ids body)
       = match m_segments r with
         | [] => 0%nat
         | _ :: _ => S (length (m_segments r))
         end.
Proof.
  intros Hlive. unfold print, bind.
  destruct (m_segments r) as [|p v] eqn:Hsegs.
  - exists []. split; [|done]. simpl. unfold ret.
    by rewrite <- app_assoc.
  - inversion Hlive as [|? ? [s Hs] Hlive']; subst.
    unfold deref at 1. rewrite Hs. unfold ret at 1.
    destruct (PrintFacts.print_stops_ok (p :: v)
                ((out ++ [ring_open])
                 ++ [node_id (NodeRef.ref (NodeRefSegment.start s))])
                pool Hlive) as (body & Hrun & Hids & Hlen).
    exists ([node_id (NodeRef.ref (NodeRefSegment.start s))] ++ body).
    rewrite Hrun. unfold ret. split; [|split].
    + f_equal. by rewrite <- !app_assoc.
    + rewrite PrintFacts.node_ids_app, Hids. unfold chain_ids, start_ref_at.
      by rewrite Hs.
    + rewrite PrintFacts.node_ids_app, length_app, Hlen. reflexivity.
Qed.

Lemma print_writes_the_chain_witness :
  exists body,
    print Sample.hole [] Sample.pool
    = Ok ([] ++ [ring_open] ++ body ++ [ring_close; INNER]) Sample.pool
    /\ node_ids body = [101; 102; 103; 104]
    /\ length (node_ids body) = 4%nat.
Proof.
  apply (print_writes_the_chain Sample.hole [] Sample.pool).
  solve_valid.
Defined.

(** X14: a well-formed ring never makes a member function fault on a
    pointer or on an empty vector: [reverse], [fix_direction], [reset],
    [mark_direction_done], [closed], [get_ways] and [print] all return,
    [add_segment_back] returns for every valid pointer, and
    [join_forward] and [join_backward] return for every ring whose segment
    pointers are valid. *)
Theorem well_formed_rings_do_not_fault (order : SegmentOrder)
  (this : ring_ptr) (r : ProtoRing) (pool : segment_pool) :
  well_formed pool r ->
  (exists r' pool', reverse r pool = Ok r' pool')
  /\ (exists r' pool', fix_direction r pool = Ok r' pool')
  /\ (exists r' pool', reset r pool = Ok r' pool')
  /\ (exists pool', mark_direction_done r pool = Ok r pool')
  /\ (exists c, closed r pool = Ok c pool)
  /\ (forall ways, exists ways', get_ways r ways pool = Ok ways' pool)
  /\ (forall out, exists out', print r out pool = Ok out' pool)
  /\ (forall p, valid pool p ->
      exists r' pool', add_segment_back this r p pool = Ok r' pool')
  /\ (forall other, Forall (valid pool) (m_segments other) ->
      (exists r' pool', join_forward this r other pool = Ok r' pool')
      /\ (exists r' pool', join_backward this r other pool = Ok r' pool')).
Proof.
  intros Hwf.
  pose proof (WellFormedFacts.wf_live _ _ Hwf) as Hlive.
  pose proof (WellFormedFacts.wf_min_live _ _ Hwf) as Hmin.
  assert (Hrev : exists r' pool', reverse r pool = Ok r' pool').
  { eexists _, _. by apply RingFacts.reverse_ok. }
  split; [exact Hrev |]. split.
  { unfold fix_direction. destruct (Bool.eqb (is_cw r) (is_outer r));
      [exact Hrev | by eexists _, _]. }
  split; [eexists _, _; by apply RingFacts.reset_ok |].
  split.
  { eexists. unfold mark_direction_done, bind.
    by rewrite PoolFacts.for_each_update. }
  split.
  { destruct Hwf as (Hne & _).
    destruct (m_segments r) as [|pf v] eqn:Hsegs; [done |].
    assert (Hhead : head (m_segments r) = Some pf) by (by rewrite Hsegs).
    destruct (last (m_segments r)) as [pl|] eqn:Hlast.
    2:{ apply last_None in Hlast. by rewrite Hsegs in Hlast. }
    rewrite Forall_forall in Hlive. rewrite <- Hsegs in Hlive.
    destruct (Hlive pf (head_Some_elem_of _ _ Hhead)) as [sf Hsf].
    destruct (Hlive pl (last_Some_elem_of _ _ Hlast)) as [sl Hsl].
    eexists. apply ReverseFacts.closed_ok.
    - by apply JoinFacts.get_node_ref_start_ok with pf.
    - by apply JoinFacts.get_node_ref_stop_ok with pl. }
  split.
  { intros ways.
    destruct (WaysFacts.get_ways_loop_spec (m_segments r) ways pool Hlive)
      as (ways' & Hrun & _). by exists ways'. }
  split.
  { intros out. by apply PrintFacts.print_returns. }
  split.
  { intros p [Hnull [s Hs]]. destruct Hmin as [m Hm]. eexists _, _.
    by apply (RingFacts.add_segment_back_ok this r p pool s m). }
  intros other Hother. split.
  - destruct (RingFacts.add_segments_back_ok this (m_segments other) r pool
                Hother Hmin) as (r' & Hrun & _).
    by eexists _, _.
  - apply WellFormedFacts.reverse_and_add_total; [|done].
    apply Forall_forall. intros q Hq. rewrite Forall_forall in Hother.
    apply Hother, list_elem_of_In, in_rev. by apply list_elem_of_In.
Qed.

Lemma well_formed_rings_do_not_fault_witness :
  exists c, closed Sample.container Sample.pool = Ok c Sample.pool.
Proof.
  apply (well_formed_rings_do_not_fault lex_order Sample.ring_addr
           Sample.container Sample.pool).
  split; [done |]. split; [solve_valid |].
  split; [by apply list_elem_of_here |].
  split; [|by left].
  unfold Int64.in_range, Int64.min_signed, Int64.max_signed. simpl. lia.
Defined.

(** ** The sum invariant across joins *)

Module JoinSumFacts.

Lemma sum_det_alter_all_disjoint f v (pool : segment_pool) w :
  (forall q, q ∈ w -> q ∉ v) ->
  sum_det (alter_all f v pool) w = sum_det pool w.
Proof.
  induction w as [|q w IH]; intros Hdisj; [reflexivity |].
  rewrite !PoolFacts.sum_det_cons, IH.
  - f_equal. unfold det_at. rewrite PoolFacts.lookup_alter_all.
    assert (Hzero : count_occ N.eq_dec v q = 0%nat).
    { apply count_occ_not_In. rewrite <- list_elem_of_In.
      apply Hdisj, list_elem_of_here. }
    rewrite Hzero. by destruct (pool !! q).
  - intros q' Hq'. by apply Hdisj, list_elem_of_further.
Qed.

Lemma consistent_in_range (pool : segment_pool) r :
  sum_consistent pool r -> Int64.in_range (m_sum r).
Proof. intros ->. apply Int64Facts.wrap_in_range. Qed.

End JoinSumFacts.

(** X15: [join_forward] keeps the sum invariant: when [m_sum] is the sum
    of [det()] over the segments for this ring and for [other], it is so
    for the joined ring. *)
Theorem join_forward_keeps_sum_consistent (order : SegmentOrder)
  (this : ring_ptr) (r other : ProtoRing) (pool : segment_pool) :
  Forall (valid pool) (m_segments other) ->
  live pool (m_min_segment r) ->
  sum_consistent pool r ->
  sum_consistent pool other ->
  exists r' pool',
    join_forward this r other pool = Ok r' pool'
    /\ sum_consistent pool' r'.
Proof.
  intros Hvalid Hlive Hr Hother.
  destruct (RingFacts.add_segments_back_ok this (m_segments other) r pool
              Hvalid Hlive) as (r' & Hrun & Hsegs & _ & _ & Hsum & Hfits).
  eexists _, _. split; [exact Hrun |].
  assert (Hrange : Int64.in_range (m_sum r')).
  { destruct (m_segments other) as [|p v] eqn:Hv.
    - simpl in Hrun. injection Hrun as <-.
      by apply (JoinSumFacts.consistent_in_range pool).
    - by apply Hfits. }
  unfold sum_consistent.
  rewrite RingFacts.sum_det_alter_all_set_ring, Hsegs,
    PoolFacts.sum_det_app.
  rewrite <- (Int64Facts.wrap_id _ Hrange), Hsum, Hr.
  by rewrite Int64Facts.wrap_add_l.
Qed.

Lemma join_forward_keeps_sum_consistent_witness :
  exists r' pool',
    join_forward (order := lex_order) Sample.ring_addr
      Sample.chain1 Sample.chain23 Sample.pool = Ok r' pool'
    /\ sum_consistent pool' r'.
Proof.
  apply (join_forward_keeps_sum_consistent lex_order Sample.ring_addr
           Sample.chain1 Sample.chain23 Sample.pool).
  - solve_valid.
  - solve_valid.
  - reflexivity.
  - reflexivity.
Defined.

(** X16: [join_backward] keeps the sum invariant when the segment pointers
    of [other] are pairwise distinct and none of them is a segment of this
    ring: [m_sum] is then the sum of [det()] over the segments of the
    joined ring, the absorbed ones counted as reversed. *)
Theorem join_backward_keeps_sum_consistent (order : SegmentOrder)
  (this : ring_ptr) (r other : ProtoRing) (pool : segment_pool) :
  NoDup (m_segments other) ->
  (forall q, q ∈ m_segments r -> q ∉ m_segments other) ->
  Forall (valid pool) (m_segments other) ->
  live pool (m_min_segment r) ->
  sum_consistent pool r ->
  sum_consistent pool other ->
  exists r' pool',
    join_backward this r other pool = Ok r' pool'
    /\ sum_consistent pool' r'.
Proof.
  intros Hdup Hdisj Hvalid Hlive Hr Hother.
  assert (Hdup' : NoDup (rev (m_segments other))).
  { apply NoDup_ListNoDup, List.NoDup_rev. by apply NoDup_ListNoDup. }
  assert (Hvalid' : Forall (valid pool) (rev (m_segments other))).
  { apply Forall_forall. intros q Hq. rewrite Forall_forall in Hvalid.
    apply Hvalid, list_elem_of_In, in_rev. by apply list_elem_of_In. }
  destruct (JoinFacts.reverse_and_add_ok this (rev (m_segments other))
              r pool Hdup' Hvalid' Hlive)
    as (r' & Hrun & Hsegs & _ & _ & Hsum & Hfits).
  eexists _, _. split; [exact Hrun |].
  assert (Hrange : Int64.in_range (m_sum r')).
  { destruct (rev (m_segments other)) as [|p v] eqn:Hv.
    - simpl in Hrun. injection Hrun as <-.
      by apply (JoinSumFacts.consistent_in_range pool).
    - by apply Hfits. }
  unfold sum_consistent.
  rewrite Hsegs, PoolFacts.sum_det_app.
  rewrite JoinSumFacts.sum_det_alter_all_disjoint.
  2:{ intros q Hq Hin. apply (Hdisj q Hq).
      apply list_elem_of_In, in_rev. by apply list_elem_of_In. }
  rewrite <- Int64Facts.wrap_add_r.
  rewrite (ReverseFacts.wrap_sum_det_negated pool).
  2:{ intros q Hq. rewrite Forall_forall in Hvalid'.
      destruct (Hvalid' q Hq) as [_ [s Hs]].
      unfold det_at. rewrite PoolFacts.lookup_alter_all, Hs.
      assert (Hone : count_occ N.eq_dec (rev (m_segments other)) q
                     = 1%nat).
      { apply (proj1 (NoDup_count_occ' N.eq_dec _)).
        - by apply NoDup_ListNoDup.
        - by apply list_elem_of_In. }
      rewrite Hone. simpl.
      apply (SegmentFacts.det_reverse s). }
  rewrite Int64Facts.wrap_add_r.
  rewrite <- (Int64Facts.wrap_id _ Hrange), Hsum, Hr.
  replace (Int64.wrap (sum_det pool (m_segments r))
           - sum_det pool (rev (m_segments other)))
    with (Int64.wrap (sum_det pool (m_segments r))
          + - sum_det pool (rev (m_segments other))) by lia.
  by rewrite Int64Facts.wrap_add_l.
Qed.

Lemma join_backward_keeps_sum_consistent_witness :
  exists r' pool',
    join_backward (order := lex_order) Sample.ring_addr
      Sample.chain1 Sample.chain23 Sample.pool = Ok r' pool'
    /\ sum_consistent pool' r'.
Proof.
  apply (join_backward_keeps_sum_consistent lex_order Sample.ring_addr
           Sample.chain1 Sample.chain23 Sample.pool).
  - apply NoDup_ListNoDup. repeat constructor; simpl; intuition discriminate.
  - intros q Hq Hin. apply list_elem_of_singleton in Hq as ->.
    apply list_elem_of_In in Hin. simpl in Hin. intuition discriminate.
  - solve_valid.
  - solve_valid.
  - reflexivity.
  - reflexivity.
Defined.

(** ** The cached minimum across a reversal *)

(** X17: [reverse()] never writes [m_min_segment] nor the nesting links:
    after it [min_segment()] is the pointer it was before and the vector
    of segments is the old one in reverse order, while the segments behind
    the pointers have changed: on a ring with pairwise distinct segment
    pointers every segment has its start and stop swapped. *)
Theorem reverse_leaves_min_segment_pointer (r : ProtoRing)
  (pool : segment_pool) (r' : ProtoRing) (pool' : segment_pool) :
  reverse r pool = Ok r' pool' ->
  min_segment r' = min_segment r
  /\ inner_rings r' = inner_rings r
  /\ outer_ring r' = outer_ring r
  /\ m_segments r' = rev (m_segments r)
  /\ (NoDup (m_segments r) ->
      forall q, q ∈ m_segments r ->
        exists s, pool !! q = Some s
          /\ pool' !! q = Some (NodeRefSegment.reverse s)).
Proof.
  intros Hrun. unfold reverse, bind in Hrun.
  destruct (for_each (m_segments r) (update NodeRefSegment.reverse) pool)
    as [u pool1|] eqn:Hloop; [|done].
  injection Hrun as <- <-.
  split; [done |]. split; [done |]. split; [done |]. split; [done |].
  intros Hnodup q Hq.
  apply RunFacts.for_each_update_inv in Hloop as [Hlive ->].
  rewrite Forall_forall in Hlive. destruct (Hlive q Hq) as [s Hs].
  exists s. split; [exact Hs |].
  by apply ReverseFacts.lookup_reversed.
Qed.

Lemma reverse_leaves_min_segment_pointer_witness :
  min_segment
    {| m_segments := [3%N; 2%N; 1%N]; m_inner := [];
       m_min_segment := 1%N; m_outer_ring := nullptr; m_sum := 5 |}
  = min_segment Sample.triangle.
Proof.
  apply (reverse_leaves_min_segment_pointer
           Sample.triangle Sample.pool _
           (alter_all NodeRefSegment.reverse [1%N; 2%N; 3%N] Sample.pool)).
  reflexivity.
Defined.

(** X18: whether the pointer that [reverse()] leaves in [m_min_segment]
    still points to a minimum is decided by the order on segments alone.
    Under an order that reads a segment the same way in both directions, a
    minimum before [reverse()] is a minimum after it, on every ring with
    live pointers.  Under an order that lets two segments change places
    when both are reversed, the ring made of these two has its minimum
    cached before [reverse()] and a segment that is not a minimum cached
    after it. *)
Theorem min_segment_after_reverse_depends_on_order (order : SegmentOrder)
  (laws : SegmentOrderLaws order) :
  ((forall a b, seg_lt (NodeRefSegment.reverse a) b = seg_lt a b) ->
   (forall a b, seg_lt a (NodeRefSegment.reverse b) = seg_lt a b) ->
   forall r (pool : segment_pool),
     Forall (live pool) (m_segments r) ->
     is_minimum pool (m_segments r) (min_segment r) ->
     exists r' pool',
       reverse r pool = Ok r' pool'
       /\ is_minimum pool' (m_segments r') (min_segment r'))
  /\ (forall this a b,
      seg_lt a b = true ->
      seg_lt (NodeRefSegment.reverse b) (NodeRefSegment.reverse a) = true ->
      exists r pool1 r' pool2,
        build this 1%N [2%N] (<[1%N := a]> (<[2%N := b]> ∅)) = Ok r pool1
        /\ is_minimum pool1 (m_segments r) (min_segment r)
        /\ reverse r pool1 = Ok r' pool2
        /\ min_segment r' = min_segment r
        /\ ~ is_minimum pool2 (m_segments r') (min_segment r')).
Proof.
  split.
  - intros Hl Hr r pool Hlive Hmin.
    eexists _, _. split; [by apply RingFacts.reverse_ok |].
    eapply (MinAcrossReverse.reverse_keeps_minimum Hl Hr r pool);
      [exact Hlive | exact Hmin |].
    by apply RingFacts.reverse_ok.
  - intros this a b Hab Hba.
    by apply (MinAcrossReverse.reverse_loses_minimum laws).
Qed.

Lemma min_segment_after_reverse_depends_on_order_witness :
  (exists r' pool',
     reverse
       {| m_segments := [1%N; 2%N; 3%N]; m_inner := [];
          m_min_segment := 3%N; m_outer_ring := nullptr; m_sum := -5 |}
       Sample.pool = Ok r' pool'
     /\ is_minimum (order := undirected_order)
          pool' (m_segments r') (min_segment r'))
  /\ (exists r pool1 r' pool2,
      build (order := lex_order) Sample.ring_addr 1%N [2%N]
        (<[1%N := Sample.segment Sample.p1 Sample.p2]>
           (<[2%N := Sample.segment Sample.p2 Sample.p3]> ∅)) = Ok r pool1
      /\ is_minimum (order := lex_order) pool1 (m_segments r) (min_segment r)
      /\ reverse r pool1 = Ok r' pool2
      /\ min_segment r' = min_segment r
      /\ ~ is_minimum (order := lex_order)
           pool2 (m_segments r') (min_segment r')).
Proof.
  split.
  - apply (proj1 (min_segment_after_reverse_depends_on_order
                    undirected_order UndirectedOrder.undirected_order_laws)
                 UndirectedOrder.undirected_lt_reverse_l
                 UndirectedOrder.undirected_lt_reverse_r
                 {| m_segments := [1%N; 2%N; 3%N]; m_inner := [];
                    m_min_segment := 3%N; m_outer_ring := nullptr;
                    m_sum := -5 |} Sample.pool).
    + solve_valid.
    + split; [cbn; set_solver |]. eexists.
      split; [reflexivity |]. intros q s Hq Hs.
      repeat (apply elem_of_cons in Hq as [-> | Hq]);
        [| | |by apply elem_of_nil in Hq];
        injection Hs as <-; reflexivity.
  - apply (proj2 (min_segment_after_reverse_depends_on_order
                    lex_order LexOrder.lex_order_laws)
                 Sample.ring_addr
                 (Sample.segment Sample.p1 Sample.p2)
                 (Sample.segment Sample.p2 Sample.p3));
      reflexivity.
Defined.
